(** * qiskit-nature: the molecular problem and the excitation-list helpers

    A shallow embedding of
    - [MolecularProblem.second_q_ops]
      (qiskit_nature/problems/second_quantization/molecular/molecular_problem.py),
    - the list helpers [pop_el_when_matched] and
      [excitation_lists_comparator] of
      test/components/variational_forms/test_uccsd_advanced.py,
    together with models of the integral calculator, the singlet excitation
    enumeration and the ansatz parameter assignment, which the sources above
    call or test but do not contain. *)

From stdpp Require Import base option list numbers sets gmap.

Set Default Proof Using "Type".
Set Warnings "-clear-no-such-hyp".

(** ** Python results: a value, or a raised exception *)

Inductive result (E A : Type) : Type :=
  | Ok (a : A)
  | Raise (e : E).
Arguments Ok {E A} a.
Arguments Raise {E A} e.

#[global] Instance result_ret {E} : MRet (result E) := λ A, Ok.
#[global] Instance result_bind {E} : MBind (result E) :=
  λ A B f m, match m with Ok a => f a | Raise e => Raise e end.

(** ** The excitation-list helpers of test_uccsd_advanced.py *)

Module Helpers.

(** The only exception the helpers can raise themselves: [list.pop] with an
    index that is out of range. *)
Inductive exn := IndexError.

(** What Python's [or] and [bool()] see in the comparator's last line. *)
Inductive pyval :=
  | PInt (n : nat)
  | PBool (b : bool).

Definition truthy (v : pyval) : bool :=
  match v with
  | PInt n => negb (n =? 0)
  | PBool b => b
  end.

(** [x or y]: [x] when it is truthy, else [y]. *)
Definition py_or (x y : pyval) : pyval := if truthy x then x else y.

Section Lists.
Context {A : Type} `{EqDecision A}.

(** An excitation is a Python list of indices; they are compared with [==]. *)
Definition excitation : Type := list A.

(** The helpers mutate the list objects they are given.  The store holds
    the contents of the objects behind the two parameters [list1] and
    [list2]: two different objects, or one object passed twice. *)
Inductive store :=
  | Distinct (l1 l2 : list excitation)
  | Aliased (l : list excitation).

Definition list1 (s : store) : list excitation :=
  match s with Distinct l1 _ => l1 | Aliased l => l end.

Definition list2 (s : store) : list excitation :=
  match s with Distinct _ l2 => l2 | Aliased l => l end.

(** [l.pop(i)] for [i >= 0]: removes position [i], or raises. *)
Definition pop (i : nat) (l : list excitation) : result exn (list excitation) :=
  if decide (i < length l) then Ok (delete i l) else Raise IndexError.

(** [list1.pop(i)] and [list2.pop(j)] on the store. *)
Definition pop_list1 (i : nat) (s : store) : result exn store :=
  match s with
  | Distinct l1 l2 => l1' ← pop i l1; mret (Distinct l1' l2)
  | Aliased l => l' ← pop i l; mret (Aliased l')
  end.

Definition pop_list2 (j : nat) (s : store) : result exn store :=
  match s with
  | Distinct l1 l2 => l2' ← pop j l2; mret (Distinct l1 l2')
  | Aliased l => l' ← pop j l; mret (Aliased l')
  end.

(** [for ind1 in exc1: for ind2 in exc2: if ind1 == ind2: counter += 1] *)
Definition count_matches (exc1 exc2 : excitation) (counter : nat) : nat :=
  foldl (λ c ind1,
           foldl (λ c' ind2, if decide (ind1 = ind2) then S c' else c') c exc2)
        counter exc1.

(** The inner loop [for j, exc2 in enumerate(list2)] for a fixed [exc1]:
    the position [j] at which it pops and breaks, if any.  [counter] is
    carried from one [exc2] to the next. *)
Fixpoint inner_loop (exc1 : excitation) (l2 : list excitation)
    (j counter : nat) : option nat :=
  match l2 with
  | [] => None
  | exc2 :: rest =>
      let counter := count_matches exc1 exc2 counter in
      if (counter =? length exc1) && (counter =? length exc2)
      then Some j
      else inner_loop exc1 rest (S j) counter
  end.

(** [pop_el_when_matched(list1, list2)]: the outer loop runs its body for
    [i = 0] only, because of the [break] that ends it.  The function
    returns its two (mutated) parameters: the store after the call. *)
Definition pop_el_when_matched (s : store) : result exn store :=
  match list1 s with
  | [] => mret s
  | exc1 :: _ =>
      match inner_loop exc1 (list2 s) 0 0 with
      | Some j => s' ← pop_list1 0 s; pop_list2 j s'
      | None => mret s
      end
  end.

(** [for _ in range(number_el): list1, list2 = pop_el_when_matched(list1, list2)] *)
Fixpoint pop_loop (number_el : nat) (s : store) : result exn store :=
  match number_el with
  | 0 => mret s
  | S n => s' ← pop_el_when_matched s; pop_loop n s'
  end.

(** [bool(len(list1) or len(list2) in [0])]: [in] binds tighter than [or]. *)
Definition final_expression (l1 l2 : list excitation) : bool :=
  truthy (py_or (PInt (length l1)) (PBool (bool_decide (length l2 ∈ [0])))).

(** [excitation_lists_comparator(list1, list2)]: the returned boolean and
    the store it leaves behind. *)
Definition excitation_lists_comparator (s : store) : result exn (bool * store) :=
  if negb (length (list1 s) =? length (list2 s)) then mret (false, s)
  else
    let number_el := length (list1 s) in
    s' ← pop_loop number_el s;
    mret (final_expression (list1 s') (list2 s'), s').

End Lists.

Arguments store : clear implicits.
Arguments excitation : clear implicits.

End Helpers.


(** ** MolecularProblem (molecular_problem.py) *)

Module Molecular.

(** What molecular_problem.py imports: the molecule snapshot with its
    attributes, the operators, the integral tensors, the exceptions the
    collaborators raise, and the functions of fermionic_op_builder and
    integrals_calculators, each of which may raise.  The calculators return
    a tuple that the callers unpack with [*] into the arguments
    [(one_body, two_body=None)] of [build_ferm_op_from_ints]. *)
Class Imports := {
  QMolecule : Type;
  FermionicOp : Type;
  OneBody : Type;
  TwoBody : Type;
  Err : Type;
  (* q_molecule.one_body_integrals.shape[0] *)
  one_body_shape0 : QMolecule → nat;
  has_dipole_integrals : QMolecule → bool;
  x_dipole_integrals : QMolecule → OneBody;
  y_dipole_integrals : QMolecule → OneBody;
  z_dipole_integrals : QMolecule → OneBody;
  build_fermionic_op : QMolecule → result Err FermionicOp;
  build_ferm_op_from_ints : OneBody → option TwoBody → result Err FermionicOp;
  calc_total_magnetization_ints : nat → result Err (OneBody * option TwoBody);
  calc_total_ang_momentum_ints : nat → result Err (OneBody * option TwoBody);
  calc_total_particle_num_ints : nat → result Err (OneBody * option TwoBody) }.

Section Problem.
Context `{Imports}.

(** The driver and the transformers, by the one method the problem calls. *)
Record FermionicDriver := { run : result Err QMolecule }.

Record BaseTransformer := { transform : QMolecule → result Err QMolecule }.

(** The two attributes [__init__] hands to [BaseProblem]; no transformers
    ([None]) is the empty list. *)
Record MolecularProblem := {
  driver : FermionicDriver;
  transformers : list BaseTransformer }.

(** Modelled from the spec: [BaseProblem._transform] (base_problem.py is not
    among the sources), which applies the transformer chain to the snapshot
    sequentially, left to right, each transformer producing a new snapshot. *)
Definition _transform (self : MolecularProblem) (q_molecule : QMolecule)
    : result Err QMolecule :=
  foldl (λ acc transformer, q ← acc; transform transformer q)
        (mret q_molecule) (transformers self).

Definition _create_dipole_operators (q_molecule : QMolecule)
    : result Err (FermionicOp * FermionicOp * FermionicOp) :=
  x_dipole_operator ← build_ferm_op_from_ints (x_dipole_integrals q_molecule) None;
  y_dipole_operator ← build_ferm_op_from_ints (y_dipole_integrals q_molecule) None;
  z_dipole_operator ← build_ferm_op_from_ints (z_dipole_integrals q_molecule) None;
  mret (x_dipole_operator, y_dipole_operator, z_dipole_operator).

Definition _create_total_magnetization_operator (num_modes : nat)
    : result Err FermionicOp :=
  '(h1, h2) ← calc_total_magnetization_ints num_modes;
  build_ferm_op_from_ints h1 h2.

Definition _create_total_angular_momentum_operator (num_modes : nat)
    : result Err FermionicOp :=
  '(h1, h2) ← calc_total_ang_momentum_ints num_modes;
  build_ferm_op_from_ints h1 h2.

Definition _create_total_particle_number_operator (num_modes : nat)
    : result Err FermionicOp :=
  '(h1, h2) ← calc_total_particle_num_ints num_modes;
  build_ferm_op_from_ints h1 h2.

Definition second_q_ops (self : MolecularProblem) : result Err (list FermionicOp) :=
  q_molecule ← run (driver self);
  q_molecule_transformed ← _transform self q_molecule;
  let num_modes := one_body_shape0 q_molecule_transformed in
  electronic_fermionic_op ← build_fermionic_op q_molecule_transformed;
  total_magnetization_ferm_op ← _create_total_magnetization_operator num_modes;
  total_angular_momentum_ferm_op ← _create_total_angular_momentum_operator num_modes;
  total_particle_number_ferm_op ← _create_total_particle_number_operator num_modes;
  let second_quantized_ops_list :=
    [electronic_fermionic_op; total_magnetization_ferm_op;
     total_angular_momentum_ferm_op; total_particle_number_ferm_op] in
  if has_dipole_integrals q_molecule_transformed then
    '(x_dipole_operator, y_dipole_operator, z_dipole_operator) ←
      _create_dipole_operators q_molecule_transformed;
    mret (second_quantized_ops_list
            ++ [x_dipole_operator; y_dipole_operator; z_dipole_operator])
  else mret second_quantized_ops_list.

End Problem.

End Molecular.

(** ** The error taxonomy of the specification (section 7) *)

Inductive error :=
  | InvalidModeCount
  | ShapeMismatch
  | MissingDipoleData
  | InvalidActiveSpace
  | IncompatibleMapping
  | DriverError.

(** ** The particle-number integral calculator *)

Module Integrals.

(** A one-body tensor as rows of coefficients; the identity has the exact
    entries 0 and 1, so integers stand for the complex coefficients. *)
Definition one_body : Type := list (list Z).
Definition two_body : Type := list (list (list (list Z))).

Definition entry (h : one_body) (i j : nat) : option Z :=
  row ← h !! i; row !! j.

(** [numpy.eye(n)] *)
Definition eye (n : nat) : one_body :=
  (λ i, (λ j, if decide (i = j) then 1%Z else 0%Z) <$> seq 0 n) <$> seq 0 n.

(** Modelled from the spec: [calc_total_particle_num_ints] of
    integrals_calculators.py, which is not among the sources.  Section 4.1:
    the total particle number is the identity one-body tensor (coefficient 1
    on every diagonal mode), no two-body part is called for, and the
    calculators fail with [InvalidModeCount] when [num_modes] is not a
    positive even integer. *)
Definition calc_total_particle_num_ints (num_modes : nat)
    : result error (one_body * option two_body) :=
  if (0 <? num_modes) && Nat.even num_modes
  then Ok (eye num_modes, None)
  else Raise InvalidModeCount.

End Integrals.

(** ** Singlet double excitations ([succ] and [succ_full]) *)

Module Excitations.

Record enumeration_input := {
  num_particles : nat * nat;
  num_spin_orbitals : nat;
  active_occupied : option (list nat);
  active_unoccupied : option (list nat) }.

(** Blocked spin ordering: the alpha modes come first, the beta modes start
    at [num_spin_orbitals / 2]. *)
Definition beta_idx (inp : enumeration_input) : nat := num_spin_orbitals inp / 2.

Definition in_active (active : option (list nat)) (i : nat) : bool :=
  match active with
  | None => true
  | Some a => bool_decide (i ∈ a)
  end.

(** The requested active indices lie in [0, num_spin_orbitals) and the two
    lists do not overlap. *)
Definition active_space_ok (inp : enumeration_input) : bool :=
  let occ := default [] (active_occupied inp) in
  let unocc := default [] (active_unoccupied inp) in
  forallb (λ i, i <? num_spin_orbitals inp) (occ ++ unocc)
  && forallb (λ i, negb (bool_decide (i ∈ unocc))) occ.

(** The four partitions, as spatial-orbital indices: the beta mode of the
    spatial orbital [q] is [q + beta_idx]. *)
Definition occupied_alpha (inp : enumeration_input) : list nat :=
  filter (λ p, in_active (active_occupied inp) p) (seq 0 (num_particles inp).1).

Definition virtual_alpha (inp : enumeration_input) : list nat :=
  filter (λ r, in_active (active_unoccupied inp) r)
         (seq (num_particles inp).1 (beta_idx inp - (num_particles inp).1)).

Definition occupied_beta (inp : enumeration_input) : list nat :=
  filter (λ q, in_active (active_occupied inp) (q + beta_idx inp))
         (seq 0 (num_particles inp).2).

Definition virtual_beta (inp : enumeration_input) : list nat :=
  filter (λ s, in_active (active_unoccupied inp) (s + beta_idx inp))
         (seq (num_particles inp).2 (beta_idx inp - (num_particles inp).2)).

(** A double excitation of one alpha and one beta electron: alpha [p → r],
    beta [q → s], all four as spatial orbitals. *)
Definition double : Type := nat * nat * nat * nat.

Definition all_doubles (inp : enumeration_input) : list double :=
  p ← occupied_alpha inp; r ← virtual_alpha inp;
  q ← occupied_beta inp; s ← virtual_beta inp;
  [(p, r, q, s)].

(** The spin symmetry that relates the members of a group: the alpha and
    the beta electron exchange their spatial orbitals. *)
Definition swap (t : double) : double :=
  let '(p, r, q, s) := t in (q, s, p, r).

(** The canonical ordering of indices: the alpha pair is not after the beta
    pair. *)
Definition canonical (t : double) : bool :=
  let '(p, r, q, s) := t in (p <? q) || ((p =? q) && (r <=? s)).

(** One representative per equivalence class: the canonical member, or the
    only member the active space admits. *)
Definition is_representative (inp : enumeration_input) (t : double) : bool :=
  canonical t || negb (bool_decide (swap t ∈ all_doubles inp)).

Definition representatives (inp : enumeration_input) : list double :=
  filter (λ t, is_representative inp t) (all_doubles inp).

(** A representative with every other excitation of its class. *)
Definition group_of (inp : enumeration_input) (t : double) : list double :=
  t :: (if bool_decide (swap t ≠ t ∧ swap t ∈ all_doubles inp) then [swap t] else []).

(** The excitation as the list of spin-orbital indices
    [[occ_alpha, virt_alpha, occ_beta, virt_beta]]. *)
Definition encode (inp : enumeration_input) (t : double) : list nat :=
  let '(p, r, q, s) := t in [p; r; q + beta_idx inp; s + beta_idx inp].

(** Modelled from the spec: the enumeration of double excitations with
    method [succ] (the UCCSD class is not among the sources).  Section 4.4:
    occupied and virtual spin orbitals, each restricted to the active lists
    when given; a symmetry-reduced set with one representative excitation
    per equivalence class, chosen by a canonical ordering of indices;
    [InvalidActiveSpace] when the active indices are out of range or
    overlap.  The index layout and the symmetry are those of the reference
    lists of test_uccsd_advanced.py. *)
Definition succ (inp : enumeration_input) : result error (list (list nat)) :=
  if active_space_ok inp
  then Ok (encode inp <$> representatives inp)
  else Raise InvalidActiveSpace.

(** Modelled from the spec: method [succ_full] (the UCCSD class is not among
    the sources).  Section 4.4: like [succ] but returns groups, each
    representative bundled with all symmetry-equivalent excitations, which
    share one variational parameter. *)
Definition succ_full (inp : enumeration_input)
    : result error (list (list (list nat))) :=
  if active_space_ok inp
  then Ok ((λ t, encode inp <$> group_of inp t) <$> representatives inp)
  else Raise InvalidActiveSpace.

(** The input of the reference lists of the test: 8 spin orbitals, one
    alpha and one beta electron, no active-space restriction. *)
Definition h2_631g : enumeration_input :=
  {| num_particles := (1, 1); num_spin_orbitals := 8;
     active_occupied := None; active_unoccupied := None |}.

(** [reference_singlet_double_excitations] and [reference_singlet_groups]
    of [TestUCCSDHartreeFock.setUp]. *)
Definition reference_singlet_double_excitations : list (list nat) :=
  [[0; 1; 4; 5]; [0; 1; 4; 6]; [0; 1; 4; 7];
   [0; 2; 4; 6]; [0; 2; 4; 7]; [0; 3; 4; 7]].

Definition reference_singlet_groups : list (list (list nat)) :=
  [[[0; 1; 4; 5]]; [[0; 1; 4; 6]; [0; 2; 4; 5]];
   [[0; 1; 4; 7]; [0; 3; 4; 5]]; [[0; 2; 4; 6]];
   [[0; 2; 4; 7]; [0; 3; 4; 6]]; [[0; 3; 4; 7]]].

End Excitations.

(** ** What relates [succ] and [succ_full] *)

Module Singlet.

Section Grouping.
Context {Input Key : Type} `{EqDecision Key}.

(** Section 4.4 fixes neither the order test of [succ] nor the symmetry
    that makes a group, and the pool of double excitations depends on the
    method's input.  They are kept apart from what the section does fix:
    - [pool]: the unrestricted double excitations of an input (every
      combination of two occupied and two virtual indices that conserves
      spin, restricted to the active space), or the error of the input;
    - [canonical_form]: the test by the canonical ordering of indices;
    - [symmetry_key]: the canonical symmetry key that decides the
      membership in a group. *)
Variable pool : Input → result error (list (list nat)).
Variable canonical_form : Input → list nat → bool.
Variable symmetry_key : Input → list nat → Key.

(** The first excitation of each symmetry class, in the order of the
    list; [seen] holds the keys of the classes already met. *)
Fixpoint first_of_each_class (key : list nat → Key) (seen : list Key)
    (excitations : list (list nat)) : list (list nat) :=
  match excitations with
  | [] => []
  | exc :: rest =>
      if decide (key exc ∈ seen)
      then first_of_each_class key seen rest
      else exc :: first_of_each_class key (key exc :: seen) rest
  end.

(** All the excitations of the list that are equivalent to [exc]. *)
Definition class_of (key : list nat → Key) (excitations : list (list nat))
    (exc : list nat) : list (list nat) :=
  filter (λ exc', key exc' = key exc) excitations.

(** The symmetry classes of the list, each from its first excitation on. *)
Definition group_by_key (key : list nat → Key) (excitations : list (list nat))
    : list (list (list nat)) :=
  class_of key excitations <$> first_of_each_class key [] excitations.



End Grouping.

Import Excitations.








End Singlet.

(** ** The parameters of the ansatz *)

Module Ansatz.

(** One evolution term of the circuit: the excitation it evolves and the
    index of the free parameter that drives it. *)
Record term := Term { term_excitation : list nat; term_parameter : nat }.

(** Modelled from the spec: the parameter assignment of the UCC ansatz
    builder (not among the sources).  Section 4.5: each excitation of a
    group contributes one evolution term, and the terms of a group share a
    single free parameter. *)
Definition build_ansatz (groups : list (list (list nat))) : list term :=
  mjoin (imap (λ k group, (λ e, Term e k) <$> group) groups).

(** The free parameters of a circuit: the distinct ones among its terms. *)
Definition parameters (ansatz : list term) : list nat :=
  remove_dups (term_parameter <$> ansatz).

Definition num_parameters (ansatz : list term) : nat := length (parameters ansatz).

End Ansatz.


(** ** A symbolic instance of the imports *)

Module Sample.

(** Integrals and operators are the record of the call that made them, so
    that a run of the problem shows which builder produced which entry of
    the list. *)
Inductive axis := X | Y | Z_axis.

Inductive ints :=
  | MagnetizationInts (num_modes : nat)
  | AngMomentumInts (num_modes : nat)
  | ParticleNumInts (num_modes : nat)
  | DipoleInts (a : axis)
  | NoInts.

Record molecule := { modes : nat; dipole : bool }.

Inductive op :=
  | Electronic (q : molecule)
  | FromInts (one_body : ints) (two_body : option ints).

Definition dipole_ints (a : axis) (q : molecule) : ints :=
  if dipole q then DipoleInts a else NoInts.

(** The operator builder refuses integrals that are not there. *)
Definition build_from (h1 : ints) (h2 : option ints) : result error op :=
  match h1 with
  | NoInts => Raise MissingDipoleData
  | _ => Ok (FromInts h1 h2)
  end.

Definition calc (tag : nat → ints) (num_modes : nat)
    : result error (ints * option ints) :=
  if (0 <? num_modes) && Nat.even num_modes
  then Ok (tag num_modes, None)
  else Raise InvalidModeCount.

#[local] Instance imports : Molecular.Imports := {|
  Molecular.QMolecule := molecule;
  Molecular.FermionicOp := op;
  Molecular.OneBody := ints;
  Molecular.TwoBody := ints;
  Molecular.Err := error;
  Molecular.one_body_shape0 := modes;
  Molecular.has_dipole_integrals := dipole;
  Molecular.x_dipole_integrals := dipole_ints X;
  Molecular.y_dipole_integrals := dipole_ints Y;
  Molecular.z_dipole_integrals := dipole_ints Z_axis;
  Molecular.build_fermionic_op := λ q, Ok (Electronic q);
  Molecular.build_ferm_op_from_ints := build_from;
  Molecular.calc_total_magnetization_ints := calc MagnetizationInts;
  Molecular.calc_total_ang_momentum_ints := calc AngMomentumInts;
  Molecular.calc_total_particle_num_ints := calc ParticleNumInts |}.

(** A transformer that drops the dipole integrals and keeps the first
    [n] modes (an active-space reduction). *)
Definition reduce_to (n : nat) : Molecular.BaseTransformer :=
  {| Molecular.transform := λ q, Ok {| modes := n; dipole := false |} |}.

(** A driver that returns a snapshot, and one whose run fails. *)
Definition driver_of (q : molecule) : Molecular.FermionicDriver :=
  {| Molecular.run := Ok q |}.

Definition failing_driver : Molecular.FermionicDriver :=
  {| Molecular.run := Raise DriverError |}.

Definition problem_with_dipole : Molecular.MolecularProblem :=
  {| Molecular.driver := driver_of {| modes := 4; dipole := true |};
     Molecular.transformers := [] |}.

Definition problem_without_dipole : Molecular.MolecularProblem :=
  {| Molecular.driver := driver_of {| modes := 8; dipole := true |};
     Molecular.transformers := [reduce_to 4] |}.

Definition problem_failing_driver : Molecular.MolecularProblem :=
  {| Molecular.driver := failing_driver;
     Molecular.transformers := [reduce_to 4] |}.

End Sample.

(** ** The group comparator of test_uccsd_advanced.py *)

Module Groups.
Import Helpers.

Section Groups.
Context {A : Type} `{EqDecision A}.

(** A grouped excitation list is a Python list of list objects.  The
    comparator of excitation lists pops from these objects, and the same
    object is handed to it once per iteration, so the objects live in a
    heap: a reference is the identity of a list object, and two
    references are the same object exactly when they are equal.  The heap
    is a finite map from references to the contents of the objects; every
    reference of a Python list denotes an object, and the heap reads an
    unbound one as the empty list. *)
Definition ref : Type := nat.

(** The two arguments of one call, as the store the helpers work on. *)
Definition load (gr1 gr2 : ref) (h : gmap nat (list (list A))) : store A :=
  if decide (gr1 = gr2) then Aliased (h !!! gr1)
  else Distinct (h !!! gr1) (h !!! gr2).

(** The objects after the call. *)
Definition save (gr1 gr2 : ref) (s : store A) (h : gmap nat (list (list A))) : gmap nat (list (list A)) :=
  match s with
  | Distinct l1 l2 => <[gr2 := l2]> (<[gr1 := l1]> h)
  | Aliased l => <[gr1 := l]> h
  end.

(** [for _, gr2 in enumerate(glist2)]: one comparison per group of
    [glist2], counting the answers that are [True]. *)
Fixpoint inner_groups (gr1 : ref) (glist2 : list ref) (counter : nat) (h : gmap nat (list (list A)))
    : result exn (nat * gmap nat (list (list A))) :=
  match glist2 with
  | [] => mret (counter, h)
  | gr2 :: rest =>
      '(res, s) ← excitation_lists_comparator (load gr1 gr2 h);
      inner_groups gr1 rest (if (res : bool) then S counter else counter)
                   (save gr1 gr2 s h)
  end.

(** [for _, gr1 in enumerate(glist1)] *)
Fixpoint outer_groups (glist1 glist2 : list ref) (counter : nat) (h : gmap nat (list (list A)))
    : result exn (nat * gmap nat (list (list A))) :=
  match glist1 with
  | [] => mret (counter, h)
  | gr1 :: rest =>
      '(counter', h') ← inner_groups gr1 glist2 counter h;
      outer_groups rest glist2 counter' h'
  end.

(** [group_excitation_lists_comparator(glist1, glist2)]: the returned
    boolean and the heap it leaves behind. *)
Definition group_excitation_lists_comparator (glist1 glist2 : list ref) (h : gmap nat (list (list A)))
    : result exn (bool * gmap nat (list (list A))) :=
  if negb (length glist1 =? length glist2) then mret (false, h)
  else
    let number_groups := length glist1 in
    '(counter, h') ← outer_groups glist1 glist2 0 h;
    mret (counter =? number_groups, h').

(** A heap that holds the given groups at the references [start],
    [start + 1], ... *)
Definition alloc (start : ref) (groups : list (list (list A))) (h : gmap nat (list (list A))) : gmap nat (list (list A)) :=
  foldr (λ '(k, group) h', <[start + k := group]> h') h (imap pair groups).

(** A group of [glist1] and its counterpart in [glist2] in the intended
    use: the group is not empty, the indices of each of its excitations are
    all different, and the counterpart holds, position by position, a
    permutation of its excitations. *)
Definition aligned (h : gmap nat (list (list A))) (gr1 gr2 : nat) : Prop :=
  h !!! gr1 ≠ [] ∧ Forall (NoDup (A := A)) (h !!! gr1)
  ∧ Forall2 (≡ₚ) (h !!! gr1) (h !!! gr2).

End Groups.

End Groups.

(** * Properties *)

(** ** The list helpers *)

Section HelperFacts.
Import Helpers.
Context {A : Type} `{EqDecision A}.
Implicit Types (l : list (excitation A)) (exc : excitation A).

Lemma pop_in_range i l : i < length l → pop i l = Ok (delete i l).
Proof. intros Hi. unfold pop. by rewrite decide_True. Qed.

Lemma pop_out_of_range i l : length l ≤ i → pop i l = Raise IndexError.
Proof. intros Hi. unfold pop. rewrite decide_False; [done | lia]. Qed.

(** The inner loop only breaks at a position of [list2]. *)
Lemma inner_loop_position exc1 l2 : ∀ j0 counter j,
  inner_loop exc1 l2 j0 counter = Some j → j0 ≤ j < j0 + length l2.
Proof.
  induction l2 as [|exc2 rest IH]; intros j0 counter j; cbn.
  - discriminate.
  - destruct (_ && _).
    + intros [= <-]. lia.
    + intros Hj. apply IH in Hj. lia.
Qed.

(** On two different list objects the call never raises: it leaves both
    lists alone, or pops the head of [list1] and one element of [list2]. *)
Lemma pop_el_when_matched_distinct l1 l2 :
  pop_el_when_matched (Distinct l1 l2) =
    match l1 with
    | [] => Ok (Distinct l1 l2)
    | exc1 :: rest =>
        match inner_loop exc1 l2 0 0 with
        | Some j => Ok (Distinct rest (delete j l2))
        | None => Ok (Distinct l1 l2)
        end
    end.
Proof.
  unfold pop_el_when_matched. destruct l1 as [|exc1 rest]; [done|]. cbn.
  destruct (inner_loop exc1 l2 0 0) as [j|] eqn:Hj; [|done].
  apply inner_loop_position in Hj.
  rewrite pop_in_range by (cbn; lia). cbn.
  rewrite pop_in_range by lia. done.
Qed.

(** The lengths of two different lists stay equal through the pops. *)
Lemma pop_loop_distinct n : ∀ l1 l2,
  length l1 = length l2 →
  ∃ l1' l2', pop_loop n (Distinct l1 l2) = Ok (Distinct l1' l2')
             ∧ length l1' = length l2'
             ∧ length l1' ≤ length l1.
Proof.
  induction n as [|n IH]; intros l1 l2 Hlen; cbn.
  - exists l1, l2. done.
  - rewrite pop_el_when_matched_distinct.
    destruct l1 as [|exc1 rest].
    + cbn. destruct (IH [] l2 Hlen) as (l1' & l2' & -> & ? & ?). eauto.
    + destruct (inner_loop exc1 l2 0 0) as [j|] eqn:Hj; cbn.
      * apply inner_loop_position in Hj.
        destruct (IH rest (delete j l2)) as (l1' & l2' & -> & ? & ?).
        { rewrite length_delete by (apply lookup_lt_is_Some; lia).
          cbn in Hlen. lia. }
        exists l1', l2'. cbn in *. split_and!; [done | done | lia].
      * destruct (IH (exc1 :: rest) l2 Hlen) as (l1' & l2' & -> & ? & ?). eauto.
Qed.

(** A nonempty remainder of [list1] makes the last line true, whatever
    [list2] holds. *)
Lemma final_expression_nonempty l1 l2 : l1 ≠ [] → final_expression l1 l2 = true.
Proof. destruct l1; [done|]. done. Qed.

Lemma final_expression_empty l2 :
  final_expression [] l2 = bool_decide (length l2 = 0).
Proof.
  unfold final_expression. cbn.
  apply bool_decide_ext. rewrite list_elem_of_singleton. done.
Qed.

(** For two different lists of the same length the comparator answers
    [True], whatever the lists hold. *)
Lemma comparator_equal_length_true l1 l2 :
  length l1 = length l2 →
  ∃ s', excitation_lists_comparator (Distinct l1 l2) = Ok (true, s').
Proof.
  intros Hlen. unfold excitation_lists_comparator. cbn.
  rewrite Hlen, Nat.eqb_refl. cbn. rewrite <- Hlen.
  destruct (pop_loop_distinct (length l1) l1 l2 Hlen) as (l1' & l2' & -> & Hl & _).
  cbn. exists (Distinct l1' l2'). do 2 f_equal.
  destruct l1' as [|e r]; [|done].
  rewrite final_expression_empty. apply bool_decide_eq_true. by rewrite <- Hl.
Qed.

End HelperFacts.

(** When one list object is passed as both parameters, the two pops hit
    the same list: a match removes two of its elements, or the second pop
    raises when only one was left. *)
Lemma pop_el_when_matched_aliased :
  Helpers.pop_el_when_matched (Helpers.Aliased [[0; 1]; [2; 3]])
  = Ok (Helpers.Aliased [])
  ∧ Helpers.pop_el_when_matched (Helpers.Aliased [[0; 1]])
    = Raise Helpers.IndexError.
Proof. done. Qed.

Section HelperClaims.
Import Helpers.

(** C9, as stated for every pair of input lists, fails when one list
    object is passed as both arguments: the two pops then hit the same
    list, which loses two elements, the second of which stood at index 1,
    and with a single element the second pop raises. *)
Lemma pop_el_when_matched_one_object_twice :
  pop_el_when_matched (Aliased [[0; 1]; [2; 3]; [4; 5]]) = Ok (Aliased [[4; 5]])
  ∧ length [[4; 5]] + 2 = length [[0; 1]; [2; 3]; [4; 5]]
  ∧ [[0; 1]; [2; 3]; [4; 5]] !! 1 = Some [2; 3]
  ∧ ([2; 3] ∉ [[4; 5]])
  ∧ pop_el_when_matched (Aliased [[0; 1]]) = Raise IndexError.
Proof.
  split_and!; try reflexivity.
  intros Hin%list_elem_of_singleton. discriminate.
Qed.

(** C9 amended: on every pair of different list objects, one call of
    [pop_el_when_matched] returns without raising and removes at most one
    element from each list; what it removes from [list1] is the element at
    index 0.  The elements of
    [list1] after the first are never examined: swapping them for others
    changes neither the decision nor what happens to [list2].  The counter
    is not reset between candidates: [[0, 1]] is dropped against [[0, 3]]
    because [[0, 2]] was seen before it. *)
Theorem pop_el_when_matched_at_most_one :
  (∀ (A : Type) (EqA : EqDecision A) (l1 l2 : list (excitation A)),
      ∃ l1' l2',
        pop_el_when_matched (Distinct l1 l2) = Ok (Distinct l1' l2')
        ∧ (l1' = l1 ∧ l2' = l2
           ∨ ∃ j, j < length l2 ∧ l1 ≠ [] ∧ l1' = delete 0 l1 ∧ l2' = delete j l2)
        ∧ length l1 ≤ S (length l1') ∧ length l2 ≤ S (length l2'))
  ∧ (∀ (A : Type) (EqA : EqDecision A) (exc1 : excitation A)
       (rest rest' l2 : list (excitation A)),
      ∃ l2',
        (pop_el_when_matched (Distinct (exc1 :: rest) l2)
           = Ok (Distinct (exc1 :: rest) l2')
         ∧ pop_el_when_matched (Distinct (exc1 :: rest') l2)
           = Ok (Distinct (exc1 :: rest') l2'))
        ∨ (pop_el_when_matched (Distinct (exc1 :: rest) l2)
             = Ok (Distinct rest l2')
           ∧ pop_el_when_matched (Distinct (exc1 :: rest') l2)
             = Ok (Distinct rest' l2')))
  ∧ pop_el_when_matched (Distinct [[0; 1]] [[0; 2]; [0; 3]])
    = Ok (Distinct [] [[0; 2]]).
Proof.
  split_and!.
  - intros A EqA l1 l2. rewrite pop_el_when_matched_distinct.
    destruct l1 as [|exc1 rest].
    { exists [], l2. split_and!; [done | by left | cbn; lia | lia]. }
    destruct (inner_loop exc1 l2 0 0) as [j|] eqn:Hj.
    + apply inner_loop_position in Hj.
      exists rest, (delete j l2). split_and!; [done | | cbn; lia |].
      * right. exists j. split_and!; [lia | done | done | done].
      * rewrite length_delete by (apply lookup_lt_is_Some; lia). lia.
    + exists (exc1 :: rest), l2. split_and!; [done | by left | lia | lia].
  - intros A EqA exc1 rest rest' l2. rewrite !pop_el_when_matched_distinct.
    destruct (inner_loop exc1 l2 0 0) as [j|].
    + exists (delete j l2). by right.
    + exists l2. by left.
  - reflexivity.
Qed.

(** C4: there are two nonempty lists of the same length that do not hold
    the same excitations (an excitation of the first is a permutation of
    none of the second) on which [excitation_lists_comparator] returns
    [True]; its last line is true whenever what is left of [list1] is not
    empty. *)
Theorem comparator_accepts_mismatched_lists :
  (∃ l1 l2 : list (excitation nat),
      length l1 = length l2 ∧ l1 ≠ []
      ∧ (∃ exc1, exc1 ∈ l1 ∧ ∀ exc2, exc2 ∈ l2 → ¬ exc1 ≡ₚ exc2)
      ∧ ∃ s', excitation_lists_comparator (Distinct l1 l2) = Ok (true, s'))
  ∧ (∀ (A : Type) (l1 l2 : list (excitation A)),
        l1 ≠ [] → final_expression l1 l2 = true).
Proof.
  split.
  - exists [[0; 1]], [[2; 3]]. split_and!; [done | done | |].
    + exists [0; 1]. split; [by apply list_elem_of_singleton|].
      intros exc2 ->%list_elem_of_singleton Hperm.
      assert (0 ∈ [2; 3]) as Hin by (rewrite <- Hperm; apply elem_of_cons; by left).
      apply list_elem_of_In in Hin. cbn in Hin. lia.
    + exists (Distinct [[0; 1]] [[2; 3]]). reflexivity.
  - intros A l1 l2. apply final_expression_nonempty.
Qed.

(** C10: [excitation_lists_comparator] works on the caller's list objects
    and pops elements from them: there are inputs whose two lists are
    shorter after the call than before, such as two copies of the
    reference list of the test, which both end up empty. *)
Theorem comparator_mutates_its_arguments :
  (∃ (l1 l2 l1' l2' : list (excitation nat)) (b : bool),
      excitation_lists_comparator (Distinct l1 l2) = Ok (b, Distinct l1' l2')
      ∧ length l1' < length l1 ∧ length l2' < length l2)
  ∧ excitation_lists_comparator
      (Distinct Excitations.reference_singlet_double_excitations
                Excitations.reference_singlet_double_excitations)
    = Ok (true, Distinct [] []).
Proof.
  split; [|reflexivity].
  exists [[0; 1; 4; 5]], [[5; 4; 1; 0]], [], [], true.
  split_and!; [reflexivity | cbn; lia | cbn; lia].
Qed.

End HelperClaims.

(** ** The molecular problem *)

Section ProblemFacts.
Import Molecular.
Context `{Imports}.
Implicit Types (self : MolecularProblem) (q qt : QMolecule).

Lemma bind_Ok {E X Y} (m : result E X) (k : X → result E Y) x :
  m = Ok x → m ≫= k = k x.
Proof. by intros ->. Qed.

(** An exception of a bind is the exception of its first step. *)
Lemma bind_Raise {E X Y} (m : result E X) (k : X → result E Y) e :
  m = Raise e → m ≫= k = Raise e.
Proof. by intros ->. Qed.

(** Once a transformer has raised, the rest of the chain is skipped. *)
Lemma transform_chain_raised (e : Err) (ts : list BaseTransformer) :
  foldl (λ acc t, q ← acc; transform t q) (Raise e) ts = Raise e.
Proof. induction ts as [|t ts IH]; [done|]. cbn. apply IH. Qed.

(** With an empty chain the snapshot is returned as it is, and a chain runs
    its first transformer first. *)
Lemma _transform_nil d q : _transform {| driver := d; transformers := [] |} q = Ok q.
Proof. reflexivity. Qed.

Lemma _transform_cons d t ts q :
  _transform {| driver := d; transformers := t :: ts |} q
  = q' ← transform t q; _transform {| driver := d; transformers := ts |} q'.
Proof.
  unfold _transform. cbn. destruct (transform t q) as [q'|e]; cbn; [done|].
  apply transform_chain_raised.
Qed.

(** C1: for every driver and transformer chain, [second_q_ops] returns a
    list exactly when the driver, the chain and the builders return, and
    the list is then, in this order, the electronic, magnetization,
    angular momentum and particle number operators of the transformed
    snapshot, followed by its x, y and z dipole operators when it has
    dipole integrals: 4 operators without them, 7 with them. *)
Theorem second_q_ops_fixed_order self (ops : list FermionicOp) :
  second_q_ops self = Ok ops ↔
  ∃ q qt electronic magnetization angular_momentum particle_number,
    run (driver self) = Ok q
    ∧ _transform self q = Ok qt
    ∧ build_fermionic_op qt = Ok electronic
    ∧ _create_total_magnetization_operator (one_body_shape0 qt) = Ok magnetization
    ∧ _create_total_angular_momentum_operator (one_body_shape0 qt)
      = Ok angular_momentum
    ∧ _create_total_particle_number_operator (one_body_shape0 qt)
      = Ok particle_number
    ∧ (has_dipole_integrals qt = false
         ∧ ops = [electronic; magnetization; angular_momentum; particle_number]
         ∧ length ops = 4
       ∨ has_dipole_integrals qt = true
         ∧ ∃ x y z,
             build_ferm_op_from_ints (x_dipole_integrals qt) None = Ok x
             ∧ build_ferm_op_from_ints (y_dipole_integrals qt) None = Ok y
             ∧ build_ferm_op_from_ints (z_dipole_integrals qt) None = Ok z
             ∧ ops = [electronic; magnetization; angular_momentum;
                      particle_number; x; y; z]
             ∧ length ops = 7).
Proof.
  unfold second_q_ops, _create_dipole_operators. split.
  - intros Hops.
    destruct (run (driver self)) as [q|] eqn:Hq; [|done]. cbn in Hops.
    destruct (_transform self q) as [qt|] eqn:Hqt; [|done]. cbn in Hops.
    destruct (build_fermionic_op qt) as [e|] eqn:He; [|done]. cbn in Hops.
    destruct (_create_total_magnetization_operator _) as [m|] eqn:Hm; [|done].
    cbn in Hops.
    destruct (_create_total_angular_momentum_operator _) as [a|] eqn:Ha; [|done].
    cbn in Hops.
    destruct (_create_total_particle_number_operator _) as [p|] eqn:Hp; [|done].
    cbn in Hops.
    exists q, qt, e, m, a, p. split_and!; try done.
    destruct (has_dipole_integrals qt).
    + right. split; [done|].
      destruct (build_ferm_op_from_ints (x_dipole_integrals qt) None)
        as [x|]; [|done]. cbn in Hops.
      destruct (build_ferm_op_from_ints (y_dipole_integrals qt) None)
        as [y|]; [|done]. cbn in Hops.
      destruct (build_ferm_op_from_ints (z_dipole_integrals qt) None)
        as [z|]; [|done]. cbn in Hops.
      injection Hops as <-. by exists x, y, z.
    + left. by injection Hops as <-.
  - intros (q & qt & e & m & a & p & Hq & Hqt & He & Hm & Ha & Hp & Hdip).
    rewrite (bind_Ok _ _ _ Hq), (bind_Ok _ _ _ Hqt). cbv zeta.
    rewrite (bind_Ok _ _ _ He), (bind_Ok _ _ _ Hm), (bind_Ok _ _ _ Ha),
      (bind_Ok _ _ _ Hp).
    destruct Hdip as [(-> & -> & _) | (-> & x & y & z & Hx & Hy & Hz & -> & _)];
      [done|].
    by rewrite (bind_Ok _ _ _ Hx), (bind_Ok _ _ _ Hy), (bind_Ok _ _ _ Hz).
Qed.

(** C5: when the transformed snapshot has no dipole integrals,
    [second_q_ops] is the run of the four builders and nothing else: it
    raises only what one of them raises, never asks for a dipole operator,
    and returns the list of the four operators when the four are built. *)
Theorem second_q_ops_without_dipole self q qt :
  run (driver self) = Ok q →
  _transform self q = Ok qt →
  has_dipole_integrals qt = false →
  second_q_ops self
    = (e ← build_fermionic_op qt;
       m ← _create_total_magnetization_operator (one_body_shape0 qt);
       a ← _create_total_angular_momentum_operator (one_body_shape0 qt);
       p ← _create_total_particle_number_operator (one_body_shape0 qt);
       mret [e; m; a; p])
  ∧ ∀ e m a p,
      build_fermionic_op qt = Ok e →
      _create_total_magnetization_operator (one_body_shape0 qt) = Ok m →
      _create_total_angular_momentum_operator (one_body_shape0 qt) = Ok a →
      _create_total_particle_number_operator (one_body_shape0 qt) = Ok p →
      second_q_ops self = Ok [e; m; a; p].
Proof.
  intros Hq Hqt Hdip.
  assert (second_q_ops self
    = (e ← build_fermionic_op qt;
       m ← _create_total_magnetization_operator (one_body_shape0 qt);
       a ← _create_total_angular_momentum_operator (one_body_shape0 qt);
       p ← _create_total_particle_number_operator (one_body_shape0 qt);
       mret [e; m; a; p])) as Heq.
  { unfold second_q_ops.
    rewrite (bind_Ok _ _ _ Hq), (bind_Ok _ _ _ Hqt). cbv zeta. by rewrite Hdip. }
  split; [exact Heq|].
  intros e m a p He Hm Ha Hp. rewrite Heq.
  by rewrite (bind_Ok _ _ _ He), (bind_Ok _ _ _ Hm), (bind_Ok _ _ _ Ha),
    (bind_Ok _ _ _ Hp).
Qed.

(** C8: an exception raised by the driver's [run] is the outcome of
    [second_q_ops], the same exception, and no list is returned. *)
Theorem second_q_ops_propagates_driver_error self (e : Err) :
  run (driver self) = Raise e →
  second_q_ops self = Raise e ∧ ∀ ops, second_q_ops self ≠ Ok ops.
Proof.
  intros Hrun. unfold second_q_ops. rewrite (bind_Raise _ _ _ Hrun). done.
Qed.

End ProblemFacts.

Section ProblemRuns.
Import Molecular Sample.
#[local] Existing Instance Sample.imports.

(** The two shapes of the list on the symbolic instance. *)
Example second_q_ops_seven :
  second_q_ops problem_with_dipole
  = Ok (let q := {| modes := 4; dipole := true |} in
        [Electronic q;
         FromInts (MagnetizationInts 4) None;
         FromInts (AngMomentumInts 4) None;
         FromInts (ParticleNumInts 4) None;
         FromInts (DipoleInts X) None;
         FromInts (DipoleInts Y) None;
         FromInts (DipoleInts Z_axis) None]).
Proof. reflexivity. Qed.

Example second_q_ops_four :
  second_q_ops problem_without_dipole
  = Ok [Electronic {| modes := 4; dipole := false |};
        FromInts (MagnetizationInts 4) None;
        FromInts (AngMomentumInts 4) None;
        FromInts (ParticleNumInts 4) None].
Proof. reflexivity. Qed.

Lemma second_q_ops_without_dipole_witness :
  let q := {| modes := 8; dipole := true |} in
  let qt := {| modes := 4; dipole := false |} in
  run (driver problem_without_dipole) = Ok q
  ∧ _transform problem_without_dipole q = Ok qt
  ∧ has_dipole_integrals qt = false
  ∧ second_q_ops problem_without_dipole
    = Ok [Electronic qt;
          FromInts (MagnetizationInts 4) None;
          FromInts (AngMomentumInts 4) None;
          FromInts (ParticleNumInts 4) None].
Proof.
  split_and!; [reflexivity | reflexivity | reflexivity |].
  apply (second_q_ops_without_dipole problem_without_dipole
           {| modes := 8; dipole := true |} {| modes := 4; dipole := false |});
    reflexivity.
Defined.

Lemma second_q_ops_propagates_driver_error_witness :
  run (driver problem_failing_driver) = Raise DriverError
  ∧ second_q_ops problem_failing_driver = Raise DriverError.
Proof.
  split; [reflexivity|].
  apply (second_q_ops_propagates_driver_error problem_failing_driver DriverError).
  reflexivity.
Defined.

End ProblemRuns.

(** ** The particle-number integrals *)

Section IntegralFacts.
Import Integrals.

Lemma eye_length n : length (eye n) = n.
Proof. unfold eye. by rewrite length_fmap, length_seq. Qed.

Lemma eye_row n i :
  i < n → eye n !! i = Some ((λ j, if decide (i = j) then 1%Z else 0%Z) <$> seq 0 n).
Proof.
  intros Hi. unfold eye, one_body. by rewrite list_lookup_fmap, lookup_seq_lt.
Qed.

Lemma eye_rows_length n row : row ∈ eye n → length row = n.
Proof.
  unfold eye. intros (i & -> & _)%list_elem_of_fmap.
  by rewrite length_fmap, length_seq.
Qed.

Lemma eye_entry n i j :
  i < n → j < n → entry (eye n) i j = Some (if decide (i = j) then 1%Z else 0%Z).
Proof.
  intros Hi Hj. unfold entry, one_body. rewrite eye_row by done.
  cbn [mbind option_bind].
  by rewrite list_lookup_fmap, lookup_seq_lt.
Qed.

(** C7: for every positive even [num_modes] the particle-number calculator
    returns, and its one-body tensor is the identity of size
    [num_modes × num_modes]: 1 on the diagonal, 0 elsewhere. *)
Theorem particle_number_ints_identity (num_modes : nat) :
  0 < num_modes → Nat.Even num_modes →
  ∃ h1 h2,
    calc_total_particle_num_ints num_modes = Ok (h1, h2)
    ∧ length h1 = num_modes
    ∧ (∀ row, row ∈ h1 → length row = num_modes)
    ∧ ∀ i j, i < num_modes → j < num_modes →
        entry h1 i j = Some (if decide (i = j) then 1%Z else 0%Z).
Proof.
  intros Hpos Heven. exists (eye num_modes), None.
  unfold calc_total_particle_num_ints.
  apply Nat.even_spec in Heven as ->.
  apply Nat.ltb_lt in Hpos as ->. cbn.
  split_and!; [done | apply eye_length | apply eye_rows_length | apply eye_entry].
Qed.

Lemma particle_number_ints_identity_witness :
  0 < 4 ∧ Nat.Even 4
  ∧ ∃ h1 h2,
      calc_total_particle_num_ints 4 = Ok (h1, h2)
      ∧ length h1 = 4
      ∧ (∀ row, row ∈ h1 → length row = 4)
      ∧ ∀ i j, i < 4 → j < 4 →
          entry h1 i j = Some (if decide (i = j) then 1%Z else 0%Z).
Proof.
  assert (0 < 4) as Hpos by lia.
  assert (Nat.Even 4) as Heven by (exists 2; reflexivity).
  split_and!; [exact Hpos | exact Heven |].
  exact (particle_number_ints_identity 4 Hpos Heven).
Defined.

(** Outside the valid mode counts the calculator raises. *)
Lemma particle_number_ints_invalid_modes :
  calc_total_particle_num_ints 0 = Raise InvalidModeCount
  ∧ calc_total_particle_num_ints 3 = Raise InvalidModeCount.
Proof. done. Qed.

End IntegralFacts.

(** ** Singlet excitations and their groups *)

Section ExcitationFacts.
Import Excitations.
Implicit Types (inp : enumeration_input) (t : double).

#[local] Instance encode_inj inp : Inj (=) (=) (encode inp).
Proof.
  intros [[[p r] q] s] [[[p' r'] q'] s']. cbn. intros [= -> -> Hq Hs].
  repeat f_equal; lia.
Qed.

Lemma elem_of_all_doubles inp p r q s :
  (p, r, q, s) ∈ all_doubles inp ↔
  p ∈ occupied_alpha inp ∧ r ∈ virtual_alpha inp
  ∧ q ∈ occupied_beta inp ∧ s ∈ virtual_beta inp.
Proof.
  unfold all_doubles. repeat setoid_rewrite list_elem_of_bind.
  setoid_rewrite list_elem_of_singleton. naive_solver.
Qed.

(** A bind has no duplicates when each element can be traced back to the
    element of the list it comes from. *)
Lemma NoDup_bind_traced {X Y} (f : X → list Y) (origin : Y → X) (l : list X) :
  NoDup l →
  (∀ x, x ∈ l → NoDup (f x)) →
  (∀ x y, y ∈ f x → origin y = x) →
  NoDup (l ≫= f).
Proof.
  intros Hl Hf Horigin. apply NoDup_bind; [|done|done].
  intros x1 x2 y _ _ H1 H2.
  by rewrite <- (Horigin x1 y H1), <- (Horigin x2 y H2).
Qed.

Lemma NoDup_partitions inp :
  NoDup (occupied_alpha inp) ∧ NoDup (virtual_alpha inp)
  ∧ NoDup (occupied_beta inp) ∧ NoDup (virtual_beta inp).
Proof. split_and!; apply NoDup_filter, NoDup_seq. Qed.

Lemma NoDup_all_doubles inp : NoDup (all_doubles inp).
Proof.
  destruct (NoDup_partitions inp) as (Hoa & Hva & Hob & Hvb).
  unfold all_doubles.
  apply (NoDup_bind_traced _ (λ t, t.1.1.1)); [done| |].
  2:{ intros p [[[p' r] q] s]. repeat setoid_rewrite list_elem_of_bind.
      setoid_rewrite list_elem_of_singleton. naive_solver. }
  intros p _. apply (NoDup_bind_traced _ (λ t, t.1.1.2)); [done| |].
  2:{ intros r [[[p' r'] q] s]. repeat setoid_rewrite list_elem_of_bind.
      setoid_rewrite list_elem_of_singleton. naive_solver. }
  intros r _. apply (NoDup_bind_traced _ (λ t, t.1.2)); [done| |].
  2:{ intros q [[[p' r'] q'] s]. repeat setoid_rewrite list_elem_of_bind.
      setoid_rewrite list_elem_of_singleton. naive_solver. }
  intros q _. apply (NoDup_bind_traced _ (λ t, t.2)); [done| |].
  2:{ intros s [[[p' r'] q'] s']. setoid_rewrite list_elem_of_singleton.
      naive_solver. }
  intros s _. apply NoDup_singleton.
Qed.

Lemma NoDup_representatives inp : NoDup (representatives inp).
Proof. apply NoDup_filter, NoDup_all_doubles. Qed.

Lemma succ_full_inv inp g :
  succ_full inp = Ok g →
  g = (λ t, encode inp <$> group_of inp t) <$> representatives inp.
Proof. unfold succ_full. destruct (active_space_ok inp); congruence. Qed.

Lemma succ_inv inp l :
  succ inp = Ok l → l = encode inp <$> representatives inp.
Proof. unfold succ. destruct (active_space_ok inp); congruence. Qed.

(** Out-of-range or overlapping active lists are refused by both methods. *)
Lemma invalid_active_space inp :
  active_space_ok inp = false →
  succ inp = Raise InvalidActiveSpace ∧ succ_full inp = Raise InvalidActiveSpace.
Proof. unfold succ, succ_full. by intros ->. Qed.

(** C3: singlet double excitations for 8 spin orbitals and one alpha and
    one beta electron (occupied modes 0 and 4) are, as a set, the six
    excitations of the reference list. *)
Theorem succ_reference_excitations :
  ∃ l,
    succ {| num_particles := (1, 1); num_spin_orbitals := 8;
            active_occupied := None; active_unoccupied := None |} = Ok l
    ∧ l ≡ₚ [[0; 1; 4; 5]; [0; 1; 4; 6]; [0; 1; 4; 7];
            [0; 2; 4; 6]; [0; 2; 4; 7]; [0; 3; 4; 7]]
    ∧ l ≡ₚ reference_singlet_double_excitations
    ∧ NoDup l.
Proof.
  eexists. split; [reflexivity|]. split_and!; [done | done |].
  apply (NoDup_fmap_2 _), NoDup_representatives.
Qed.

(** The grouped enumeration on the same input is the reference list of
    groups. *)
Lemma succ_full_reference_groups :
  succ_full h2_631g = Ok reference_singlet_groups.
Proof. reflexivity. Qed.


End ExcitationFacts.

(** ** The groups of [succ_full] against the list of [succ] *)

Section SingletFacts.
Import Excitations Singlet.
Context {Input Key : Type} `{EqDecision Key}.
Implicit Types (key : list nat → Key) (seen : list Key)
  (excitations : list (list nat)) (exc : list nat).

(** A class is opened by an excitation of the list whose key was not met
    before. *)
Lemma elem_of_first_of_each_class key excitations : ∀ seen exc,
  exc ∈ first_of_each_class key seen excitations →
  exc ∈ excitations ∧ key exc ∉ seen.
Proof.
  induction excitations as [|exc0 rest IH]; intros seen exc; cbn [first_of_each_class].
  { by intros ?%elem_of_nil. }
  destruct (decide (key exc0 ∈ seen)) as [Hseen|Hseen].
  - intros [Hin Hkey]%IH. split; [by right | done].
  - intros [->|[Hin Hkey]%IH]%elem_of_cons.
    + split; [by left | done].
    + split; [by right|]. intros Hk. apply Hkey. by right.
Qed.

(** No two classes are opened with the same key. *)
Lemma first_of_each_class_keys key excitations : ∀ seen,
  NoDup (key <$> first_of_each_class key seen excitations).
Proof.
  induction excitations as [|exc0 rest IH]; intros seen; cbn [first_of_each_class].
  { apply NoDup_nil_2. }
  destruct (decide (key exc0 ∈ seen)) as [Hseen|Hseen]; [apply IH|].
  rewrite fmap_cons. apply NoDup_cons. split; [|apply IH].
  intros (exc & Hkey & Hexc)%list_elem_of_fmap.
  apply elem_of_first_of_each_class in Hexc as [_ Hnew].
  apply Hnew. rewrite <- Hkey. by left.
Qed.

(** Every excitation of the list belongs to a class that was met before or
    is opened in the list. *)
Lemma first_of_each_class_covers key excitations : ∀ seen exc,
  exc ∈ excitations →
  key exc ∈ seen
  ∨ ∃ first, first ∈ first_of_each_class key seen excitations
             ∧ key first = key exc.
Proof.
  induction excitations as [|exc0 rest IH]; intros seen exc; cbn [first_of_each_class].
  { by intros ?%elem_of_nil. }
  destruct (decide (key exc0 ∈ seen)) as [Hseen|Hseen].
  - intros [->|Hin]%elem_of_cons; [by left|]. by apply IH.
  - intros [->|Hin]%elem_of_cons.
    + right. exists exc0. split; [by left | done].
    + destruct (IH (key exc0 :: seen) exc Hin) as [Hk|(first & Hfirst & Hk)].
      * apply elem_of_cons in Hk as [Hk|Hk]; [|by left].
        right. exists exc0. split; [by left | done].
      * right. exists first. split; [by right | done].
Qed.

Lemma elem_of_class_of key excitations exc exc' :
  exc' ∈ class_of key excitations exc ↔ key exc' = key exc ∧ exc' ∈ excitations.
Proof. unfold class_of. by rewrite list_elem_of_filter. Qed.

(** The groups hold the excitations of the list, all of them and no
    other. *)
Lemma elem_of_group_by_key key excitations exc :
  exc ∈ mjoin (group_by_key key excitations) ↔ exc ∈ excitations.
Proof.
  unfold group_by_key. rewrite list_elem_of_join.
  setoid_rewrite list_elem_of_fmap. split.
  - intros (group & Hexc & first & -> & _).
    by apply elem_of_class_of in Hexc as [_ Hexc].
  - intros Hexc.
    destruct (first_of_each_class_covers key excitations [] exc Hexc)
      as [Hk|(first & Hfirst & Hk)]; [by apply elem_of_nil in Hk|].
    exists (class_of key excitations first). split; [|by exists first].
    by apply elem_of_class_of.
Qed.

(** Equal keys among the excitations that open the classes mean the same
    excitation. *)
Lemma first_of_each_class_key_inj key excitations exc1 exc2 :
  exc1 ∈ first_of_each_class key [] excitations →
  exc2 ∈ first_of_each_class key [] excitations →
  key exc1 = key exc2 → exc1 = exc2.
Proof.
  intros [i Hi]%list_elem_of_lookup [j Hj]%list_elem_of_lookup Hkey.
  pose proof (first_of_each_class_keys key excitations []) as Hnd.
  assert (i = j) as ->; [|congruence].
  apply (NoDup_lookup _ i j (key exc1) Hnd).
  - by rewrite list_lookup_fmap, Hi.
  - by rewrite list_lookup_fmap, Hj, Hkey.
Qed.

(** No excitation is in two groups, or twice in one, when it is once in
    the list. *)
Lemma NoDup_group_by_key key excitations :
  NoDup excitations → NoDup (mjoin (group_by_key key excitations)).
Proof.
  intros Hnd. unfold group_by_key. rewrite list_join_bind, list_fmap_bind.
  apply NoDup_bind.
  - intros first1 first2 exc Hfirst1 Hfirst2. cbn.
    intros [Hk1 _]%elem_of_class_of [Hk2 _]%elem_of_class_of.
    apply (first_of_each_class_key_inj key excitations); [done | done | congruence].
  - intros first _. cbn. by apply NoDup_filter.
  - apply (NoDup_fmap_1 key), first_of_each_class_keys.
Qed.

(** The groups are the list, rearranged class by class. *)
Lemma group_by_key_partitions key excitations :
  NoDup excitations → mjoin (group_by_key key excitations) ≡ₚ excitations.
Proof.
  intros Hnd. apply NoDup_Permutation; [by apply NoDup_group_by_key | done |].
  intros exc. apply elem_of_group_by_key.
Qed.


End SingletFacts.


(** ** The parameters of the ansatz *)

Section AnsatzFacts.
Import Excitations Ansatz.
Implicit Types (groups : list (list (list nat))) (t : term).

(** A term belongs to the group whose index is its parameter. *)
Lemma elem_of_build_ansatz groups t :
  t ∈ build_ansatz groups ↔
  ∃ group, groups !! term_parameter t = Some group ∧ term_excitation t ∈ group.
Proof.
  unfold build_ansatz. rewrite list_elem_of_join.
  setoid_rewrite elem_of_lookup_imap. split.
  - intros (terms & Ht & k & group & -> & Hk).
    apply list_elem_of_fmap in Ht as (exc & -> & Hexc). by exists group.
  - intros (group & Hk & Hexc). eexists. split; [|by eexists _, _].
    destruct t as [exc k]. by apply (list_elem_of_fmap_2 (λ e, Term e k)).
Qed.

Lemma length_join_imap {X Y} (f : nat → list X → list Y) (ls : list (list X)) :
  (∀ k l, length (f k l) = length l) →
  length (mjoin (imap f ls)) = length (mjoin ls).
Proof.
  revert f. induction ls as [|l ls IH]; intros f Hf; [done|].
  rewrite imap_cons. csimpl. rewrite !length_app, Hf, IH; [done|].
  intros k l'. apply Hf.
Qed.

(** One term per raw excitation. *)
Lemma length_build_ansatz groups :
  length (build_ansatz groups) = length (mjoin groups).
Proof.
  unfold build_ansatz. apply length_join_imap. intros k l. apply length_fmap.
Qed.

(** With no empty group, the parameters in use are the indices of the
    groups. *)
Lemma parameters_are_group_indices groups :
  Forall (λ group, group ≠ []) groups →
  parameters (build_ansatz groups) ≡ₚ seq 0 (length groups).
Proof.
  intros Hne. apply NoDup_Permutation; [apply NoDup_remove_dups | apply NoDup_seq |].
  intros k. unfold parameters.
  rewrite elem_of_remove_dups, list_elem_of_fmap, elem_of_seq.
  setoid_rewrite elem_of_build_ansatz. split.
  - intros (t & -> & group & Hk%lookup_lt_Some & _). lia.
  - intros [_ Hk]. cbn in Hk. apply lookup_lt_is_Some in Hk as [group Hgroup].
    destruct group as [|exc group].
    { by destruct (Forall_lookup_1 _ _ _ _ Hne Hgroup). }
    exists (Term exc k). split; [done|]. exists (exc :: group).
    split; [done|]. apply elem_of_cons. by left.
Qed.

Lemma num_parameters_groups groups :
  Forall (λ group, group ≠ []) groups →
  num_parameters (build_ansatz groups) = length groups.
Proof.
  intros Hne. unfold num_parameters.
  by rewrite (Permutation_length (parameters_are_group_indices groups Hne)),
    length_seq.
Qed.

Lemma length_groups_le groups :
  Forall (λ group, group ≠ []) groups → length groups ≤ length (mjoin groups).
Proof.
  induction 1 as [|group groups Hne _ IH]; [done|].
  csimpl. rewrite length_app. destruct group; [done|]. cbn. lia.
Qed.

(** Every group of [succ_full] holds its representative. *)
Lemma succ_full_groups_nonempty inp g :
  succ_full inp = Ok g → Forall (λ group, group ≠ []) g.
Proof.
  intros ->%succ_full_inv. apply Forall_fmap, Forall_forall. by intros t _.
Qed.

(** C6: the ansatz built from the groups of [succ_full] has as many free
    parameters as there are groups, which is at most the number of raw
    excitations (one term each); the terms of group [k], and only they,
    are driven by parameter [k], so each group shares one parameter. *)
Theorem ansatz_parameters_are_groups inp g :
  succ_full inp = Ok g →
  num_parameters (build_ansatz g) = length g
  ∧ length g ≤ length (mjoin g)
  ∧ length (build_ansatz g) = length (mjoin g)
  ∧ (∀ exc k, Term exc k ∈ build_ansatz g ↔
               ∃ group, g !! k = Some group ∧ exc ∈ group)
  ∧ ∀ l, succ inp = Ok l → length g = length l.
Proof.
  intros Hg. pose proof (succ_full_groups_nonempty inp g Hg) as Hne.
  split_and!.
  - by apply num_parameters_groups.
  - by apply length_groups_le.
  - apply length_build_ansatz.
  - intros exc k. apply elem_of_build_ansatz.
  - intros l ->%succ_inv. apply succ_full_inv in Hg as ->.
    by rewrite !length_fmap.
Qed.

Lemma ansatz_parameters_are_groups_witness :
  succ_full h2_631g = Ok reference_singlet_groups
  ∧ num_parameters (build_ansatz reference_singlet_groups) = 6
  ∧ 6 ≤ length (mjoin reference_singlet_groups).
Proof.
  split; [reflexivity|].
  destruct (ansatz_parameters_are_groups h2_631g reference_singlet_groups eq_refl)
    as (Hnum & Hle & _).
  split; [exact Hnum | exact Hle].
Defined.

End AnsatzFacts.

(** ** More on the list helpers *)

Section MatchCounter.
Import Helpers.
Context {A : Type} `{EqDecision A}.
Implicit Types (exc : list A) (x y : A) (counter : nat).

(** The innermost loop adds the occurrences of one index in [exc2]. *)
Lemma count_index x exc counter :
  foldl (λ c' ind2, if decide (x = ind2) then S c' else c') counter exc
  = counter + length (filter (x =.) exc).
Proof.
  revert counter. induction exc as [|y exc IH]; intros counter; [cbn; lia|].
  cbn [foldl]. rewrite IH. destruct (decide (x = y)) as [Hxy|Hxy].
  - rewrite filter_cons_True by done. cbn [length]. lia.
  - by rewrite filter_cons_False.
Qed.

Lemma count_matches_cons x exc1 exc2 counter :
  count_matches (x :: exc1) exc2 counter
  = count_matches exc1 exc2 (counter + length (filter (x =.) exc2)).
Proof. unfold count_matches. cbn. by rewrite count_index. Qed.

(** The counter a loop starts from is added to what the loop counts. *)
Lemma count_matches_from exc1 exc2 counter :
  count_matches exc1 exc2 counter = counter + count_matches exc1 exc2 0.
Proof.
  revert counter. induction exc1 as [|x exc1 IH]; intros counter.
  - unfold count_matches. cbn. lia.
  - rewrite !count_matches_cons, (IH (counter + _)), (IH (0 + _)). lia.
Qed.

Lemma occurrences_NoDup x exc :
  NoDup exc → length (filter (x =.) exc) = if decide (x ∈ exc) then 1 else 0.
Proof.
  induction 1 as [|y exc Hy Hnd IH]; [done|].
  destruct (decide (x = y)) as [->|Hxy].
  - rewrite filter_cons_True by done. cbn. rewrite IH.
    rewrite decide_False by done. rewrite decide_True; [done|]. by left.
  - rewrite filter_cons_False by done. rewrite IH.
    destruct (decide (x ∈ exc)) as [Hin|Hin].
    + rewrite decide_True; [done|]. by right.
    + rewrite decide_False; [done|]. by intros [?|?]%elem_of_cons.
Qed.

(** Against an excitation of distinct indices, the loops count the indices
    of [exc1] that occur in it. *)
Lemma count_matches_NoDup exc1 exc2 :
  NoDup exc2 → count_matches exc1 exc2 0 = length (filter (.∈ exc2) exc1).
Proof.
  intros Hnd. induction exc1 as [|x exc1 IH]; [done|].
  rewrite count_matches_cons, count_matches_from, IH, occurrences_NoDup by done.
  destruct (decide (x ∈ exc2)).
  - rewrite filter_cons_True by done. cbn [length]. lia.
  - by rewrite filter_cons_False.
Qed.

Lemma filter_none {X} (P : X → Prop) `{∀ z, Decision (P z)} (l : list X) :
  Forall (λ z, ¬ P z) l → filter P l = [].
Proof.
  induction 1 as [|z l HP _ IH]; [done|]. by rewrite filter_cons_False.
Qed.

Lemma count_matches_disjoint exc1 exc2 counter :
  (∀ x, x ∈ exc1 → x ∉ exc2) → count_matches exc1 exc2 counter = counter.
Proof.
  revert counter. induction exc1 as [|x exc1 IH]; intros counter Hdisj; [done|].
  rewrite count_matches_cons, IH.
  - assert (filter (x =.) exc2 = []) as ->; [|cbn [length]; lia].
    apply filter_none, Forall_forall. intros y Hy ->.
    apply (Hdisj y); [by left | done].
  - intros y Hy. apply Hdisj. by right.
Qed.

Lemma filter_all_length {X} (P : X → Prop) `{∀ z, Decision (P z)} (l : list X) :
  length (filter P l) = length l → Forall P l.
Proof.
  induction l as [|z l IH]; [done|]. intros Hlen.
  destruct (decide (P z)) as [HP|HP].
  - rewrite filter_cons_True in Hlen by done. cbn [length] in Hlen.
    constructor; [done|]. apply IH. lia.
  - rewrite filter_cons_False in Hlen by done.
    pose proof (length_filter P l). cbn [length] in Hlen. lia.
Qed.

Lemma filter_all {X} (P : X → Prop) `{∀ z, Decision (P z)} (l : list X) :
  Forall P l → filter P l = l.
Proof.
  induction 1 as [|z l HP _ IH]; [done|]. by rewrite filter_cons_True, IH.
Qed.

(** X1: when the indices of each excitation are all different, as the
    docstring requires, the test that decides a pop on a fresh counter
    (the count equals both lengths) holds exactly for the excitations that
    are permutations of each other. *)
Theorem match_test_is_permutation exc1 exc2 :
  NoDup exc1 → NoDup exc2 →
  (count_matches exc1 exc2 0 =? length exc1)
    && (count_matches exc1 exc2 0 =? length exc2) = true
  ↔ exc1 ≡ₚ exc2.
Proof.
  intros Hnd1 Hnd2. rewrite count_matches_NoDup by done.
  rewrite andb_true_iff, !Nat.eqb_eq. split.
  - intros [Hall Hlen]. apply submseteq_length_Permutation; [|lia].
    apply NoDup_submseteq; [done|].
    apply filter_all_length in Hall. by apply Forall_forall.
  - intros Hperm.
    assert (filter (.∈ exc2) exc1 = exc1) as ->.
    { apply filter_all, Forall_forall. intros x Hx. by rewrite <- Hperm. }
    split; [done|]. by apply Permutation_length.
Qed.

Lemma count_matches_permutation exc1 exc2 :
  NoDup exc2 → exc1 ≡ₚ exc2 → count_matches exc1 exc2 0 = length exc1.
Proof.
  intros Hnd Hperm. rewrite count_matches_NoDup by done.
  rewrite filter_all; [done|]. apply Forall_forall. intros x Hx.
  by rewrite <- Hperm.
Qed.

(** The inner loop passes over candidates that share no index with a
    nonempty [exc1]: the counter stays at 0. *)
Lemma inner_loop_skip exc1 (pre rest : list (list A)) j :
  exc1 ≠ [] →
  Forall (λ exc2, ∀ x, x ∈ exc1 → x ∉ exc2) pre →
  inner_loop exc1 (pre ++ rest) j 0 = inner_loop exc1 rest (j + length pre) 0.
Proof.
  intros Hne Hpre. revert j.
  induction Hpre as [|exc2 pre Hdisj _ IH]; intros j.
  - cbn. by rewrite Nat.add_0_r.
  - cbn [app inner_loop]. rewrite count_matches_disjoint by done.
    destruct exc1 as [|x exc1]; [done|]. cbn [length Nat.eqb andb].
    rewrite IH. f_equal. lia.
Qed.

(** It stops at a candidate that is a permutation of [exc1]. *)
Lemma inner_loop_match exc1 exc2 (post : list (list A)) j :
  NoDup exc1 → exc1 ≡ₚ exc2 → inner_loop exc1 (exc2 :: post) j 0 = Some j.
Proof.
  intros Hnd Hperm. cbn [inner_loop].
  rewrite count_matches_permutation by (by rewrite <- Hperm || done).
  by rewrite <- (Permutation_length Hperm), Nat.eqb_refl.
Qed.

End MatchCounter.

Lemma match_test_is_permutation_witness :
  NoDup [0; 1; 4; 5] ∧ NoDup [5; 4; 1; 0]
  ∧ ((Helpers.count_matches [0; 1; 4; 5] [5; 4; 1; 0] 0 =? 4)
       && (Helpers.count_matches [0; 1; 4; 5] [5; 4; 1; 0] 0 =? 4) = true
     ↔ [0; 1; 4; 5] ≡ₚ [5; 4; 1; 0]).
Proof.
  assert (NoDup [0; 1; 4; 5]) as Hnd1 by (by apply (bool_decide_unpack _)).
  assert (NoDup [5; 4; 1; 0]) as Hnd2 by (by apply (bool_decide_unpack _)).
  split_and!; [exact Hnd1 | exact Hnd2 |].
  exact (match_test_is_permutation (A := nat) [0; 1; 4; 5] [5; 4; 1; 0] Hnd1 Hnd2).
Defined.

Section HelperExtras.
Import Helpers.
Context {A : Type} `{EqDecision A}.
Implicit Types (l : list (list A)) (exc : list A).

(** X2: a true match is found past candidates that share no index with
    the head of [list1]: when the head is nonempty with distinct indices,
    the candidates before position [length pre] of [list2] share no index
    with it and the candidate at that position is a permutation of it, the
    call pops exactly the head of [list1] and that candidate. *)
Theorem pop_el_when_matched_finds_match exc1 exc2 rest pre post :
  exc1 ≠ [] → NoDup exc1 → exc1 ≡ₚ exc2 →
  Forall (λ exc, ∀ x, x ∈ exc1 → x ∉ exc) pre →
  pop_el_when_matched (Distinct (exc1 :: rest) (pre ++ exc2 :: post))
  = Ok (Distinct rest (pre ++ post)).
Proof.
  intros Hne Hnd Hperm Hpre. rewrite pop_el_when_matched_distinct.
  rewrite inner_loop_skip, inner_loop_match by done. cbn [Nat.add].
  by rewrite delete_middle.
Qed.

(** Popping never raises on two different lists; the first list keeps a
    suffix, the second a sublist, and both lose equally many elements. *)
Lemma pop_loop_distinct_frame n : ∀ l1 l2,
  ∃ l1' l2',
    pop_loop n (Distinct l1 l2) = Ok (Distinct l1' l2')
    ∧ l1' `suffix_of` l1 ∧ l2' `sublist_of` l2
    ∧ length l1' + length l2 = length l1 + length l2'.
Proof.
  induction n as [|n IH]; intros l1 l2; cbn [pop_loop].
  - exists l1, l2. done.
  - rewrite pop_el_when_matched_distinct. destruct l1 as [|exc1 rest].
    + destruct (IH [] l2) as (l1' & l2' & Hrun & ? & ? & ?).
      exists l1', l2'. by rewrite <- Hrun.
    + destruct (inner_loop exc1 l2 0 0) as [j|] eqn:Hj.
      * apply inner_loop_position in Hj. unfold excitation in Hj.
        destruct (IH rest (delete j l2)) as (l1' & l2' & Hrun & Hsuf & Hsub & Hlen).
        exists l1', l2'. split_and!.
        -- by rewrite <- Hrun.
        -- by apply suffix_cons_r.
        -- etrans; [done|]. apply sublist_delete.
        -- rewrite length_delete in Hlen by (apply lookup_lt_is_Some; lia).
           cbn [length]. lia.
      * destruct (IH (exc1 :: rest) l2) as (l1' & l2' & Hrun & ? & ? & ?).
        exists l1', l2'. by rewrite <- Hrun.
Qed.

(** X3: on two different list objects [excitation_lists_comparator] never
    raises and answers whether the two lists have the same length, whatever
    they hold; when the lengths differ it leaves both lists as they are. *)
Theorem comparator_compares_lengths l1 l2 :
  ∃ s',
    excitation_lists_comparator (Distinct l1 l2)
    = Ok (bool_decide (length l1 = length l2), s')
    ∧ (length l1 ≠ length l2 → s' = Distinct l1 l2).
Proof.
  destruct (decide (length l1 = length l2)) as [Hlen|Hlen].
  - destruct (comparator_equal_length_true l1 l2 Hlen) as [s' Hs'].
    exists s'. by rewrite bool_decide_eq_true_2.
  - exists (Distinct l1 l2). rewrite bool_decide_eq_false_2 by done.
    split; [|done]. unfold excitation_lists_comparator, excitation. cbn [list1 list2].
    by apply Nat.eqb_neq in Hlen as ->.
Qed.

(** X4: after a call on two different list objects, [list1] holds a suffix
    of what it held, [list2] a sublist of what it held (the elements that
    stay keep their order), and both have lost the same number of
    elements. *)
Theorem comparator_keeps_sublists l1 l2 :
  ∃ b l1' l2',
    excitation_lists_comparator (Distinct l1 l2) = Ok (b, Distinct l1' l2')
    ∧ l1' `suffix_of` l1 ∧ l2' `sublist_of` l2
    ∧ length l1' + length l2 = length l1 + length l2'.
Proof.
  unfold excitation_lists_comparator, excitation. cbn [list1 list2].
  destruct (length l1 =? length l2); cbn [negb].
  - destruct (pop_loop_distinct_frame (length l1) l1 l2)
      as (l1' & l2' & -> & ? & ? & ?).
    by eexists _, l1', l2'.
  - by exists false, l1, l2.
Qed.

Lemma pop_loop_nil n l2 : pop_loop n (Distinct [] l2) = Ok (Distinct [] l2).
Proof.
  induction n as [|n IH]; [done|]. cbn [pop_loop].
  rewrite pop_el_when_matched_distinct. exact IH.
Qed.

Lemma pop_loop_aligned n : ∀ l1 l2,
  Forall2 (≡ₚ) l1 l2 → Forall (NoDup (A := A)) l1 → length l1 ≤ n →
  pop_loop n (Distinct l1 l2) = Ok (Distinct [] []).
Proof.
  induction n as [|n IH]; intros l1 l2 Hperm Hnd Hlen.
  - destruct Hperm; [done | cbn in Hlen; lia].
  - destruct Hperm as [|exc1 exc2 l1 l2 Hexc Hperm]; [apply pop_loop_nil|].
    apply Forall_cons in Hnd as [Hnd1 Hnd]. cbn [pop_loop].
    rewrite pop_el_when_matched_distinct, inner_loop_match by done.
    cbn. apply IH; [done | done | cbn in Hlen; lia].
Qed.

(** X5: the intended use.  When the indices of every excitation are all
    different and [list2] holds, position by position, a permutation of the
    excitation of [list1], the comparator answers [True] and has emptied
    both lists. *)
Theorem comparator_accepts_aligned_lists l1 l2 :
  Forall2 (≡ₚ) l1 l2 → Forall (NoDup (A := A)) l1 →
  excitation_lists_comparator (Distinct l1 l2) = Ok (true, Distinct [] []).
Proof.
  intros Hperm Hnd. unfold excitation_lists_comparator, excitation. cbn [list1 list2].
  rewrite (Forall2_length _ _ _ Hperm), Nat.eqb_refl. cbn [negb].
  rewrite <- (Forall2_length _ _ _ Hperm).
  by rewrite pop_loop_aligned.
Qed.

(** One call on a list passed twice: the head matches itself, and the two
    pops take the first two elements, or the second pop fails. *)
Lemma pop_el_when_matched_aliased_cons exc l :
  NoDup exc →
  pop_el_when_matched (Aliased (exc :: l))
  = match l with
    | [] => Raise IndexError
    | _ :: rest => Ok (Aliased rest)
    end.
Proof.
  intros Hnd. unfold pop_el_when_matched. cbn [list1 list2].
  rewrite inner_loop_match by done. by destruct l.
Qed.

Lemma pop_loop_aliased n : ∀ l,
  Forall (NoDup (A := A)) l → length l ≤ 2 * n →
  pop_loop n (Aliased l)
  = if Nat.even (length l) then Ok (Aliased []) else Raise IndexError.
Proof.
  induction n as [|n IH]; intros l Hnd Hlen.
  - destruct l; [done | cbn in Hlen; lia].
  - cbn [pop_loop]. destruct l as [|exc1 [|exc2 rest]].
    + cbn. clear. induction n as [|n IH']; [done|]. done.
    + apply Forall_cons in Hnd as [Hnd1 _].
      by rewrite pop_el_when_matched_aliased_cons.
    + apply Forall_cons in Hnd as [Hnd1 Hnd].
      apply Forall_cons in Hnd as [_ Hnd].
      rewrite pop_el_when_matched_aliased_cons by done. cbn [mbind result_bind].
      rewrite IH; [done | done | cbn in Hlen; lia].
Qed.

(** X6: one list object passed as both arguments, its excitations having
    distinct indices: the comparator pops the list two elements at a time;
    with an even number of excitations it answers [True] and leaves the
    list empty, with an odd number the last pop raises [IndexError]. *)
Theorem comparator_on_one_list l :
  Forall (NoDup (A := A)) l →
  excitation_lists_comparator (Aliased l)
  = if Nat.even (length l) then Ok (true, Aliased []) else Raise IndexError.
Proof.
  intros Hnd. unfold excitation_lists_comparator, excitation. cbn [list1 list2].
  rewrite Nat.eqb_refl. cbn [negb].
  rewrite pop_loop_aliased by (done || lia).
  by destruct (Nat.even (length l)).
Qed.

End HelperExtras.
Lemma pop_el_when_matched_finds_match_witness :
  [0; 1; 4; 6] ≠ [] ∧ NoDup [0; 1; 4; 6] ∧ [0; 1; 4; 6] ≡ₚ [6; 4; 1; 0]
  ∧ Forall (λ exc, ∀ x, x ∈ [0; 1; 4; 6] → x ∉ exc) [[2; 3; 5; 7]]
  ∧ Helpers.pop_el_when_matched
      (Helpers.Distinct [[0; 1; 4; 6]; [0; 2; 4; 7]]
                        [[2; 3; 5; 7]; [6; 4; 1; 0]; [0; 2; 4; 7]])
    = Ok (Helpers.Distinct [[0; 2; 4; 7]] [[2; 3; 5; 7]; [0; 2; 4; 7]]).
Proof.
  assert ([0; 1; 4; 6] ≠ []) as Hne by done.
  assert (NoDup [0; 1; 4; 6]) as Hnd by (by apply (bool_decide_unpack _)).
  assert ([0; 1; 4; 6] ≡ₚ [6; 4; 1; 0]) as Hperm
    by (by apply (bool_decide_unpack _)).
  assert (Forall (λ exc, ∀ x, x ∈ [0; 1; 4; 6] → x ∉ exc) [[2; 3; 5; 7]]) as Hpre.
  { apply Forall_singleton. intros x Hx Hx'.
    apply list_elem_of_In in Hx, Hx'. cbn in Hx, Hx'. lia. }
  split_and!; [exact Hne | exact Hnd | exact Hperm | exact Hpre |].
  exact (pop_el_when_matched_finds_match (A := nat) [0; 1; 4; 6] [6; 4; 1; 0]
           [[0; 2; 4; 7]] [[2; 3; 5; 7]] [[0; 2; 4; 7]] Hne Hnd Hperm Hpre).
Defined.

Lemma comparator_accepts_aligned_lists_witness :
  Forall2 (≡ₚ) [[0; 1; 4; 5]; [0; 2; 4; 6]] [[5; 4; 1; 0]; [0; 4; 2; 6]]
  ∧ Forall NoDup [[0; 1; 4; 5]; [0; 2; 4; 6]]
  ∧ Helpers.excitation_lists_comparator
      (Helpers.Distinct [[0; 1; 4; 5]; [0; 2; 4; 6]] [[5; 4; 1; 0]; [0; 4; 2; 6]])
    = Ok (true, Helpers.Distinct [] []).
Proof.
  assert (Forall2 (≡ₚ) [[0; 1; 4; 5]; [0; 2; 4; 6]] [[5; 4; 1; 0]; [0; 4; 2; 6]])
    as Hperm by (by apply (bool_decide_unpack _)).
  assert (Forall NoDup [[0; 1; 4; 5]; [0; 2; 4; 6]]) as Hnd
    by (by apply (bool_decide_unpack _)).
  split_and!; [exact Hperm | exact Hnd |].
  exact (comparator_accepts_aligned_lists (A := nat) _ _ Hperm Hnd).
Defined.

Lemma comparator_on_one_list_witness :
  Forall NoDup [[0; 1; 4; 5]]
  ∧ Helpers.excitation_lists_comparator (Helpers.Aliased [[0; 1; 4; 5]])
    = Raise Helpers.IndexError.
Proof.
  assert (Forall NoDup [[0; 1; 4; 5]]) as Hnd by (by apply (bool_decide_unpack _)).
  split; [exact Hnd|].
  exact (comparator_on_one_list (A := nat) [[0; 1; 4; 5]] Hnd).
Defined.

(** ** The group comparator *)

Section GroupFacts.
Import Helpers Groups.
Context {A : Type} `{EqDecision A}.
Implicit Types (h : gmap nat (list (list A))) (gr r : nat) (glist : list nat).

Lemma suffix_sublist {X} (l1 l2 : list X) : l1 `suffix_of` l2 → l1 `sublist_of` l2.
Proof. intros [k ->]. by apply sublist_inserts_l. Qed.

(** What one call on two different list objects returns and leaves. *)
Lemma comparator_distinct (l1 l2 : list (list A)) :
  ∃ l1' l2',
    excitation_lists_comparator (Distinct l1 l2)
    = Ok (bool_decide (length l1 = length l2), Distinct l1' l2')
    ∧ l1' `sublist_of` l1 ∧ l2' `sublist_of` l2
    ∧ (length l1 ≠ length l2 → l1' = l1 ∧ l2' = l2).
Proof.
  unfold excitation_lists_comparator, excitation. cbn [list1 list2].
  destruct (decide (length l1 = length l2)) as [Hlen|Hlen].
  - rewrite bool_decide_eq_true_2 by done.
    apply Nat.eqb_eq in Hlen as Hlen'. rewrite Hlen'. cbn [negb].
    destruct (pop_loop_distinct_frame (length l1) l1 l2)
      as (l1' & l2' & -> & Hsuf & Hsub & Hrem).
    exists l1', l2'. split_and!; [| by apply suffix_sublist | done | done].
    cbn. do 2 f_equal. destruct l1' as [|exc l1']; [|done].
    rewrite final_expression_empty. apply bool_decide_eq_true.
    unfold excitation in *. cbn in Hrem. lia.
  - rewrite bool_decide_eq_false_2 by done.
    apply Nat.eqb_neq in Hlen as Hlen'. rewrite Hlen'. cbn [negb].
    by exists l1, l2.
Qed.

Lemma load_distinct gr1 gr2 h :
  gr1 ≠ gr2 → load gr1 gr2 h = Distinct (h !!! gr1) (h !!! gr2).
Proof. intros Hne. unfold load. by rewrite decide_False. Qed.

Lemma save_lookup gr1 gr2 (l1 l2 : list (list A)) h r :
  gr1 ≠ gr2 →
  save gr1 gr2 (Distinct l1 l2) h !!! r
  = if decide (r = gr1) then l1 else if decide (r = gr2) then l2 else h !!! r.
Proof.
  intros Hne. unfold save.
  destruct (decide (r = gr1)) as [->|Hr1].
  - by rewrite lookup_total_insert_ne, lookup_total_insert_eq.
  - destruct (decide (r = gr2)) as [->|Hr2].
    + by rewrite lookup_total_insert_eq.
    + by rewrite !lookup_total_insert_ne.
Qed.

Lemma save_lookup_other gr1 gr2 (s : store A) h r :
  r ≠ gr1 → r ≠ gr2 → save gr1 gr2 s h !! r = h !! r.
Proof.
  intros Hr1 Hr2. unfold save. destruct s as [l1 l2|l].
  - by rewrite !lookup_insert_ne.
  - by rewrite lookup_insert_ne.
Qed.

(** The inner loop over a list is the loop over its front, then over its
    back. *)
Lemma inner_groups_app gr1 glist glist' counter h :
  inner_groups gr1 (glist ++ glist') counter h
  = '(counter', h') ← inner_groups gr1 glist counter h;
    inner_groups gr1 glist' counter' h'.
Proof.
  revert counter h. induction glist as [|gr2 glist IH]; intros counter h; [done|].
  cbn [app inner_groups].
  destruct (excitation_lists_comparator (load gr1 gr2 h)) as [[res s]|e]; [|done].
  cbn. apply IH.
Qed.

(** The loops on list objects that are not shared between the two
    arguments: no exception, groups only shrink, other objects are not
    touched. *)
Lemma inner_groups_frame gr1 glist2 : ∀ counter h,
  gr1 ∉ glist2 →
  ∃ counter' h',
    inner_groups gr1 glist2 counter h = Ok (counter', h')
    ∧ (∀ r, h' !!! r `sublist_of` h !!! r)
    ∧ (∀ r, r ≠ gr1 → r ∉ glist2 → h' !! r = h !! r).
Proof.
  induction glist2 as [|gr2 glist2 IH]; intros counter h Hgr1.
  { exists counter, h. done. }
  apply not_elem_of_cons in Hgr1 as [Hne Hgr1]. cbn [inner_groups].
  rewrite load_distinct by done. unfold excitation.
  destruct (comparator_distinct (h !!! gr1) (h !!! gr2))
    as (l1' & l2' & -> & Hsub1 & Hsub2 & _). cbn [mbind result_bind].
  match goal with
  | |- context [inner_groups _ _ ?c ?h1] =>
      destruct (IH c h1 Hgr1) as (counter' & h' & Hrun & Hsub & Hother)
  end.
  exists counter', h'. split_and!; [exact Hrun | |].
  - intros r. etrans; [apply Hsub|]. rewrite save_lookup by done.
    repeat case_decide; by subst.
  - intros r Hr1 [Hr2 Hr]%not_elem_of_cons.
    by rewrite Hother, save_lookup_other.
Qed.

Lemma outer_groups_frame glist1 glist2 : ∀ counter h,
  (∀ r, r ∈ glist1 → r ∉ glist2) →
  ∃ counter' h',
    outer_groups glist1 glist2 counter h = Ok (counter', h')
    ∧ (∀ r, h' !!! r `sublist_of` h !!! r)
    ∧ (∀ r, r ∉ glist1 → r ∉ glist2 → h' !! r = h !! r).
Proof.
  induction glist1 as [|gr1 glist1 IH]; intros counter h Hdisj.
  { exists counter, h. done. }
  cbn [outer_groups].
  destruct (inner_groups_frame gr1 glist2 counter h)
    as (c1 & h1 & -> & Hsub1 & Hother1); [apply Hdisj; by left|]. cbn.
  destruct (IH c1 h1) as (c2 & h2 & -> & Hsub2 & Hother2).
  { intros r Hr. apply Hdisj. by right. }
  exists c2, h2. split_and!; [done | |].
  - intros r. etrans; [apply Hsub2 | apply Hsub1].
  - intros r [Hr1 Hr]%not_elem_of_cons Hr2. by rewrite Hother2, Hother1.
Qed.

(** X7: on two grouped lists that share no list object the group
    comparator never raises; afterwards every group holds a sublist of what
    it held before, and the list objects that belong to neither argument
    are as they were. *)
Theorem group_comparator_shrinks_groups glist1 glist2 h :
  (∀ r, r ∈ glist1 → r ∉ glist2) →
  ∃ b h',
    group_excitation_lists_comparator glist1 glist2 h = Ok (b, h')
    ∧ (∀ r, h' !!! r `sublist_of` h !!! r)
    ∧ (∀ r, r ∉ glist1 → r ∉ glist2 → h' !! r = h !! r).
Proof.
  intros Hdisj. unfold group_excitation_lists_comparator.
  destruct (negb _).
  { exists false, h. done. }
  destruct (outer_groups_frame glist1 glist2 0 h Hdisj)
    as (counter & h' & -> & Hsub & Hother).
  cbn. by eexists _, h'.
Qed.

(** X8: for lists of one group each, on different list objects, the group
    comparator only compares the sizes of the two groups: it answers
    [True] exactly when they hold equally many excitations, whatever
    these are. *)
Theorem group_comparator_single_groups gr1 gr2 h :
  gr1 ≠ gr2 →
  ∃ h',
    group_excitation_lists_comparator [gr1] [gr2] h
    = Ok (bool_decide (length (h !!! gr1) = length (h !!! gr2)), h').
Proof.
  intros Hne. unfold group_excitation_lists_comparator.
  cbn [length Nat.eqb negb outer_groups inner_groups].
  rewrite load_distinct by done. unfold excitation.
  destruct (comparator_distinct (h !!! gr1) (h !!! gr2))
    as (l1' & l2' & -> & _). cbn.
  eexists. by destruct (bool_decide _).
Qed.

End GroupFacts.

Section GroupRuns.
Import Helpers Groups.
Context {A : Type} `{EqDecision A}.
Implicit Types (h : gmap nat (list (list A))) (gr r : nat) (glist : list nat).

(** Groups of different sizes: the answer is [False] and both are left as
    they were. *)
Lemma inner_groups_unequal gr1 gr2 glist counter h :
  gr1 ≠ gr2 → length (h !!! gr1) ≠ length (h !!! gr2) →
  ∃ h1,
    inner_groups gr1 (gr2 :: glist) counter h = inner_groups gr1 glist counter h1
    ∧ ∀ r, h1 !!! r = h !!! r.
Proof.
  intros Hne Hlen. cbn [inner_groups].
  rewrite load_distinct by done. unfold excitation.
  destruct (comparator_distinct (h !!! gr1) (h !!! gr2))
    as (l1' & l2' & -> & _ & _ & Hsame).
  destruct (Hsame Hlen) as [-> ->].
  rewrite bool_decide_eq_false_2 by done. cbn [mbind result_bind].
  eexists. split; [done|]. intros r. rewrite save_lookup by done.
  repeat case_decide; by subst.
Qed.

Lemma inner_groups_skip gr1 glist : ∀ counter h,
  gr1 ∉ glist →
  (∀ r, r ∈ glist → length (h !!! gr1) ≠ length (h !!! r)) →
  ∃ h',
    inner_groups gr1 glist counter h = Ok (counter, h')
    ∧ ∀ r, h' !!! r = h !!! r.
Proof.
  induction glist as [|gr2 glist IH]; intros counter h Hgr1 Hlen.
  { by exists h. }
  apply not_elem_of_cons in Hgr1 as [Hne Hgr1].
  destruct (inner_groups_unequal gr1 gr2 glist counter h Hne)
    as (h1 & -> & Hh1); [apply Hlen; by left|].
  destruct (IH counter h1 Hgr1) as (h' & -> & Hh').
  { intros r Hr. rewrite !Hh1. apply Hlen. by right. }
  exists h'. split; [done|]. intros r. by rewrite Hh', Hh1.
Qed.

Lemma comparator_aligned (l1 l2 : list (list A)) :
  Forall2 (≡ₚ) l1 l2 → Forall (NoDup (A := A)) l1 →
  excitation_lists_comparator (Distinct l1 l2) = Ok (true, Distinct [] []).
Proof.
  intros Hperm Hnd. unfold excitation_lists_comparator, excitation.
  cbn [list1 list2].
  rewrite (Forall2_length _ _ _ Hperm), Nat.eqb_refl. cbn [negb].
  rewrite <- (Forall2_length _ _ _ Hperm).
  by rewrite pop_loop_aligned.
Qed.

(** A group against its aligned counterpart: [True], and both are emptied. *)
Lemma inner_groups_aligned gr1 gr2 glist counter h :
  gr1 ≠ gr2 →
  Forall2 (≡ₚ) (h !!! gr1) (h !!! gr2) → Forall (NoDup (A := A)) (h !!! gr1) →
  ∃ h1,
    inner_groups gr1 (gr2 :: glist) counter h
    = inner_groups gr1 glist (S counter) h1
    ∧ h1 !!! gr1 = [] ∧ h1 !!! gr2 = []
    ∧ ∀ r, r ≠ gr1 → r ≠ gr2 → h1 !!! r = h !!! r.
Proof.
  intros Hne Hperm Hnd. cbn [inner_groups].
  rewrite load_distinct by done. unfold excitation.
  rewrite comparator_aligned by done. cbn [mbind result_bind].
  eexists. split; [done|]. split_and!.
  - rewrite save_lookup by done. by rewrite decide_True.
  - rewrite save_lookup by done. rewrite decide_False by done.
    by rewrite decide_True.
  - intros r Hr1 Hr2. rewrite save_lookup by done.
    by rewrite !decide_False.
Qed.

(** One round of the outer loop in the intended use: the groups of
    [glist2] before the counterpart are already empty, those after it are
    not yet, so only the counterpart is counted. *)
Lemma inner_groups_round gr1 gr2 done2 todo2 counter h :
  gr1 ∉ done2 ++ gr2 :: todo2 → gr2 ∉ done2 ++ todo2 →
  h !!! gr1 ≠ [] →
  (∀ r, r ∈ done2 → h !!! r = []) →
  (∀ r, r ∈ todo2 → h !!! r ≠ []) →
  Forall2 (≡ₚ) (h !!! gr1) (h !!! gr2) → Forall (NoDup (A := A)) (h !!! gr1) →
  ∃ h',
    inner_groups gr1 (done2 ++ gr2 :: todo2) counter h = Ok (S counter, h')
    ∧ h' !!! gr1 = [] ∧ h' !!! gr2 = []
    ∧ ∀ r, r ≠ gr1 → r ≠ gr2 → h' !!! r = h !!! r.
Proof.
  intros Hgr1 Hgr2 Hne Hdone Htodo Hperm Hnd.
  apply not_elem_of_app in Hgr1 as [Hgr1d Hgr1].
  apply not_elem_of_cons in Hgr1 as [Hne12 Hgr1t].
  apply not_elem_of_app in Hgr2 as [Hgr2d Hgr2t].
  rewrite inner_groups_app.
  destruct (inner_groups_skip gr1 done2 counter h Hgr1d) as (h0 & -> & Hh0).
  { intros r Hr. rewrite (Hdone r Hr). by destruct (h !!! gr1). }
  cbn [mbind result_bind].
  destruct (inner_groups_aligned gr1 gr2 todo2 counter h0 Hne12)
    as (h1 & -> & Hh1gr1 & Hh1gr2 & Hh1); [by rewrite !Hh0 ..|].
  destruct (inner_groups_skip gr1 todo2 (S counter) h1 Hgr1t) as (h' & -> & Hh').
  { intros r Hr. rewrite Hh1gr1, Hh1, Hh0.
    - specialize (Htodo r Hr). by destruct (h !!! r).
    - by intros ->.
    - by intros ->. }
  exists h'. split_and!; [done | by rewrite Hh' .. |].
  intros r Hr1 Hr2. by rewrite Hh', Hh1, Hh0.
Qed.

Lemma aligned_counterpart_nonempty h glist1 glist2 r :
  Forall2 (aligned h) glist1 glist2 → r ∈ glist2 → h !!! r ≠ [].
Proof.
  intros Hall Hr. apply list_elem_of_lookup in Hr as [i Hi].
  destruct (Forall2_lookup_r _ _ _ _ _ Hall Hi) as (gr1 & _ & Hne & _ & Hperm).
  intros Hnil. rewrite Hnil in Hperm. apply Forall2_nil_inv_r in Hperm. done.
Qed.

Lemma aligned_same_contents h h1 glist1 glist2 :
  (∀ r, r ∈ glist1 ++ glist2 → h1 !!! r = h !!! r) →
  Forall2 (aligned h) glist1 glist2 → Forall2 (aligned h1) glist1 glist2.
Proof.
  intros Hsame Hall. apply Forall2_same_length_lookup.
  split; [by eapply Forall2_length|].
  intros i gr1 gr2 Hgr1 Hgr2.
  pose proof (Forall2_lookup_lr _ _ _ _ _ _ Hall Hgr1 Hgr2) as Hal.
  unfold aligned in *. rewrite !Hsame; [done | |].
  - apply elem_of_app. right. by eapply list_elem_of_lookup_2.
  - apply elem_of_app. left. by eapply list_elem_of_lookup_2.
Qed.

Lemma outer_groups_aligned glist1 : ∀ glist2 done2 counter h,
  NoDup (glist1 ++ done2 ++ glist2) →
  (∀ r, r ∈ done2 → h !!! r = []) →
  Forall2 (aligned h) glist1 glist2 →
  ∃ h',
    outer_groups glist1 (done2 ++ glist2) counter h
    = Ok (counter + length glist1, h')
    ∧ (∀ r, r ∈ glist1 ++ glist2 → h' !!! r = [])
    ∧ (∀ r, r ∉ glist1 ++ glist2 → h' !!! r = h !!! r).
Proof.
  induction glist1 as [|gr1 glist1 IH]; intros glist2 done2 counter h Hnd Hdone Hall.
  { apply Forall2_nil_inv_l in Hall as ->. exists h.
    cbn [outer_groups length]. rewrite Nat.add_0_r.
    split_and!; [done | | done]. by intros r ?%elem_of_nil. }
  apply Forall2_cons_inv_l in Hall as (gr2 & todo2 & Hal & Hall & ->).
  destruct Hal as (Hne & Hndup & Hperm).
  cbn [app] in Hnd. apply NoDup_cons in Hnd as [Hgr1 Hnd].
  assert (gr1 ∉ done2 ++ gr2 :: todo2) as Hgr1' by set_solver.
  assert (gr2 ∉ done2 ++ todo2) as Hgr2.
  { apply NoDup_app in Hnd as (_ & _ & Hnd).
    apply NoDup_app in Hnd as (_ & Hd & Hnd).
    apply NoDup_cons in Hnd as [Hgr2 _].
    intros [Hin|Hin]%elem_of_app; [|done]. apply (Hd gr2 Hin). by left. }
  assert (gr2 ∉ glist1) as Hgr2'.
  { apply NoDup_app in Hnd as (_ & Hd & _). intros Hin.
    apply (Hd gr2 Hin). set_solver. }
  cbn [outer_groups].
  destruct (inner_groups_round gr1 gr2 done2 todo2 counter h)
    as (h1 & -> & Hh1gr1 & Hh1gr2 & Hh1); try done.
  { intros r Hr. by eapply aligned_counterpart_nonempty. }
  cbn [mbind result_bind]. rewrite (cons_middle gr2 done2 todo2), app_assoc.
  destruct (IH todo2 (done2 ++ [gr2]) (S counter) h1) as (h' & -> & Hempty & Hother).
  { by rewrite <- app_assoc, <- cons_middle. }
  { intros r [Hr| ->%list_elem_of_singleton]%elem_of_app; [|done].
    rewrite Hh1; [by apply Hdone | |].
    - intros ->. apply Hgr1. set_solver.
    - intros ->. apply Hgr2. set_solver. }
  { apply (aligned_same_contents h); [|done]. intros r Hr. apply Hh1.
    - intros ->. apply Hgr1. set_solver.
    - intros ->. apply elem_of_app in Hr as [Hr|Hr]; [done|].
      apply Hgr2. set_solver. }
  exists h'. split_and!.
  - f_equal. f_equal. cbn [length]. lia.
  - intros r Hr.
    destruct (decide (r ∈ glist1 ++ todo2)) as [Hin|Hin]; [by apply Hempty|].
    rewrite Hother by done.
    assert (r = gr1 ∨ r = gr2) as [-> | ->] by set_solver; done.
  - intros r Hr. rewrite Hother by set_solver. apply Hh1; set_solver.
Qed.

(** X9: the intended use of the group comparator.  When the two grouped
    lists are made of pairwise different list objects, no group is empty,
    the indices of every excitation are all different, and each group of
    [glist2] holds, position by position, a permutation of the excitations
    of the group of [glist1] at the same place, the answer is [True]; all
    the groups of both lists are empty afterwards, and no other list
    object has changed. *)
Theorem group_comparator_accepts_aligned_groups glist1 glist2 h :
  NoDup (glist1 ++ glist2) →
  Forall2 (λ gr1 gr2,
             h !!! gr1 ≠ [] ∧ Forall (NoDup (A := A)) (h !!! gr1)
             ∧ Forall2 (≡ₚ) (h !!! gr1) (h !!! gr2)) glist1 glist2 →
  ∃ h',
    group_excitation_lists_comparator glist1 glist2 h = Ok (true, h')
    ∧ (∀ r, r ∈ glist1 ++ glist2 → h' !!! r = [])
    ∧ (∀ r, r ∉ glist1 ++ glist2 → h' !!! r = h !!! r).
Proof.
  intros Hnd Hall. unfold group_excitation_lists_comparator, ref.
  rewrite (Forall2_length _ _ _ Hall), Nat.eqb_refl. cbn [negb].
  destruct (outer_groups_aligned glist1 glist2 [] 0 h) as (h' & Hrun & Hempty & Hother);
    [done | by intros r ?%elem_of_nil | done |].
  cbn [app] in Hrun. rewrite Hrun. cbn [mbind result_bind Nat.add].
  exists h'. rewrite <- (Forall2_length _ _ _ Hall), Nat.eqb_refl. done.
Qed.

(** X10: a list object that heads both grouped lists is compared with
    itself first; when it holds an odd number of excitations, the indices
    of each all different, the group comparator raises [IndexError]. *)
Theorem group_comparator_same_object gr glist1 glist2 h :
  length glist1 = length glist2 →
  Forall (NoDup (A := A)) (h !!! gr) → Nat.even (length (h !!! gr)) = false →
  group_excitation_lists_comparator (gr :: glist1) (gr :: glist2) h
  = Raise IndexError.
Proof.
  intros Hlen Hnd Hodd. unfold group_excitation_lists_comparator, ref.
  cbn [length]. rewrite Hlen, Nat.eqb_refl.
  cbn [negb outer_groups inner_groups]. unfold load. rewrite decide_True by done.
  unfold excitation_lists_comparator, excitation. cbn [list1 list2].
  rewrite Nat.eqb_refl. cbn [negb].
  rewrite pop_loop_aliased by (done || lia). unfold excitation, ref.
  by rewrite Hodd.
Qed.

End GroupRuns.

Lemma group_comparator_shrinks_groups_witness :
  let h : gmap nat (list (list nat)) :=
    Groups.alloc 0 [[[0; 1]; [2; 3]]; [[4; 5]]]
      (Groups.alloc 10 [[[1; 0]; [7; 8]]; [[5; 4]]] ∅) in
  (∀ r, r ∈ [0; 1] → r ∉ [10; 11])
  ∧ ∃ b h',
      Groups.group_excitation_lists_comparator [0; 1] [10; 11] h = Ok (b, h')
      ∧ (∀ r, h' !!! r `sublist_of` h !!! r)
      ∧ (∀ r, r ∉ [0; 1] → r ∉ [10; 11] → h' !! r = h !! r).
Proof.
  intros h.
  assert (∀ r, r ∈ [0; 1] → r ∉ [10; 11]) as Hdisj.
  { intros r Hr Hr'. apply list_elem_of_In in Hr, Hr'. cbn in Hr, Hr'. lia. }
  split; [exact Hdisj|].
  exact (group_comparator_shrinks_groups (A := nat) [0; 1] [10; 11] h Hdisj).
Defined.

Lemma group_comparator_single_groups_witness :
  let h : gmap nat (list (list nat)) := {[ 0 := [[0; 1]]; 1 := [[2; 3]] ]} in
  0 ≠ 1
  ∧ ∃ h',
      Groups.group_excitation_lists_comparator [0] [1] h
      = Ok (bool_decide (length (h !!! 0) = length (h !!! 1)), h').
Proof.
  intros h. assert (0 ≠ 1) as Hne by lia. split; [exact Hne|].
  exact (group_comparator_single_groups (A := nat) 0 1 h Hne).
Defined.

Lemma group_comparator_accepts_aligned_groups_witness :
  let h : gmap nat (list (list nat)) :=
    {[ 0 := [[0; 1; 4; 6]; [0; 2; 4; 5]]; 1 := [[0; 2; 4; 6]];
       10 := [[6; 4; 1; 0]; [0; 2; 4; 5]]; 11 := [[0; 4; 2; 6]] ]} in
  NoDup ([0; 1] ++ [10; 11])
  ∧ Forall2 (λ gr1 gr2,
               h !!! gr1 ≠ [] ∧ Forall NoDup (h !!! gr1)
               ∧ Forall2 (≡ₚ) (h !!! gr1) (h !!! gr2)) [0; 1] [10; 11]
  ∧ ∃ h',
      Groups.group_excitation_lists_comparator [0; 1] [10; 11] h = Ok (true, h')
      ∧ (∀ r, r ∈ [0; 1] ++ [10; 11] → h' !!! r = [])
      ∧ (∀ r, r ∉ [0; 1] ++ [10; 11] → h' !!! r = h !!! r).
Proof.
  intros h.
  assert (NoDup ([0; 1] ++ [10; 11])) as Hnd by (by apply (bool_decide_unpack _)).
  assert (Forall2 (λ gr1 gr2,
                     h !!! gr1 ≠ [] ∧ Forall NoDup (h !!! gr1)
                     ∧ Forall2 (≡ₚ) (h !!! gr1) (h !!! gr2)) [0; 1] [10; 11])
    as Hall.
  { repeat constructor; try done; by apply (bool_decide_unpack _). }
  split_and!; [exact Hnd | exact Hall |].
  exact (group_comparator_accepts_aligned_groups (A := nat) [0; 1] [10; 11] h
           Hnd Hall).
Defined.

Lemma group_comparator_same_object_witness :
  let h : gmap nat (list (list nat)) := {[ 0 := [[0; 1; 4; 5]] ]} in
  length [1; 2] = length [1; 2]
  ∧ Forall NoDup (h !!! 0) ∧ Nat.even (length (h !!! 0)) = false
  ∧ Groups.group_excitation_lists_comparator [0; 1; 2] [0; 1; 2] h
    = Raise Helpers.IndexError.
Proof.
  intros h.
  assert (Forall NoDup (h !!! 0)) as Hnd by (by apply (bool_decide_unpack _)).
  split_and!; [reflexivity | exact Hnd | reflexivity |].
  exact (group_comparator_same_object (A := nat) 0 [1; 2] [1; 2] h
           eq_refl Hnd eq_refl).
Defined.

(** ** Failures of the molecular problem *)

Section ProblemErrors.
Import Molecular.
Context `{Imports}.
Implicit Types (self : MolecularProblem) (q qt : QMolecule).

(** Both directions of a case of the analysis below: the steps that ran
    are known by their equations. *)
Ltac settle_failure :=
  split;
  [ intros Hraise; try discriminate Hraise;
    try (injection Hraise as ->); eauto 30
  | intros Hcase;
    repeat match type of Hcase with
           | _ ∨ _ => destruct Hcase as [Hcase|Hcase]
           | ∃ _, _ => destruct Hcase as (? & Hcase)
           | _ ∧ _ => destruct Hcase as (? & Hcase)
           end;
    simplify_eq; congruence ].

(** X11: [second_q_ops] raises [e] exactly when [e] is what the first
    failing step raises, the steps being, in this order, the driver, the
    transformer chain, the electronic, magnetization, angular momentum and
    particle number operators and, only when the transformed snapshot has
    dipole integrals, the x, y and z dipole operators.  A failure of a
    dipole operator fails the whole call although four operators were
    already built. *)
Theorem second_q_ops_raises_first_failure self (e : Err) :
  second_q_ops self = Raise e ↔
  run (driver self) = Raise e
  ∨ ∃ q, run (driver self) = Ok q ∧
    (_transform self q = Raise e
     ∨ ∃ qt, _transform self q = Ok qt ∧
       (build_fermionic_op qt = Raise e
        ∨ ∃ electronic, build_fermionic_op qt = Ok electronic ∧
          (_create_total_magnetization_operator (one_body_shape0 qt) = Raise e
           ∨ ∃ magnetization,
               _create_total_magnetization_operator (one_body_shape0 qt)
               = Ok magnetization ∧
             (_create_total_angular_momentum_operator (one_body_shape0 qt)
              = Raise e
              ∨ ∃ angular_momentum,
                  _create_total_angular_momentum_operator (one_body_shape0 qt)
                  = Ok angular_momentum ∧
                (_create_total_particle_number_operator (one_body_shape0 qt)
                 = Raise e
                 ∨ ∃ particle_number,
                     _create_total_particle_number_operator (one_body_shape0 qt)
                     = Ok particle_number
                     ∧ has_dipole_integrals qt = true ∧
                   (build_ferm_op_from_ints (x_dipole_integrals qt) None
                    = Raise e
                    ∨ ∃ x, build_ferm_op_from_ints (x_dipole_integrals qt) None
                           = Ok x ∧
                      (build_ferm_op_from_ints (y_dipole_integrals qt) None
                       = Raise e
                       ∨ ∃ y, build_ferm_op_from_ints (y_dipole_integrals qt) None
                              = Ok y
                         ∧ build_ferm_op_from_ints (z_dipole_integrals qt) None
                           = Raise e))))))).
Proof.
  unfold second_q_ops, _create_dipole_operators.
  destruct (run (driver self)) as [q|e0] eqn:Hq; cbn [mbind result_bind];
    [|settle_failure].
  destruct (_transform self q) as [qt|e0] eqn:Hqt; cbn [mbind result_bind];
    [|settle_failure].
  destruct (build_fermionic_op qt) as [el|e0] eqn:Hel; cbn [mbind result_bind];
    [|settle_failure].
  destruct (_create_total_magnetization_operator _) as [m|e0] eqn:Hm;
    cbn [mbind result_bind]; [|settle_failure].
  destruct (_create_total_angular_momentum_operator _) as [a|e0] eqn:Ha;
    cbn [mbind result_bind]; [|settle_failure].
  destruct (_create_total_particle_number_operator _) as [p|e0] eqn:Hp;
    cbn [mbind result_bind]; [|settle_failure].
  destruct (has_dipole_integrals qt) eqn:Hdip; [|settle_failure].
  destruct (build_ferm_op_from_ints (x_dipole_integrals qt) None)
    as [x|e0] eqn:Hx; cbn [mbind result_bind]; [|settle_failure].
  destruct (build_ferm_op_from_ints (y_dipole_integrals qt) None)
    as [y|e0] eqn:Hy; cbn [mbind result_bind]; [|settle_failure].
  destruct (build_ferm_op_from_ints (z_dipole_integrals qt) None)
    as [z|e0] eqn:Hz; cbn [mbind result_bind]; settle_failure.
Qed.

End ProblemErrors.

Section EmptyGroups.
Import Helpers Groups.
Context {A : Type} `{EqDecision A}.
Implicit Types (h : gmap nat (list (list A))) (gr r : nat) (glist : list nat).

(** Two empty groups always compare as equal, so an empty group is counted
    once for every empty group of the other list. *)
Lemma inner_groups_empty gr1 glist : ∀ counter h,
  gr1 ∉ glist → h !!! gr1 = [] → (∀ r, r ∈ glist → h !!! r = []) →
  ∃ h',
    inner_groups gr1 glist counter h = Ok (counter + length glist, h')
    ∧ ∀ r, h' !!! r = h !!! r.
Proof.
  induction glist as [|gr2 glist IH]; intros counter h Hgr1 Hempty1 Hempty.
  { exists h. cbn. by rewrite Nat.add_0_r. }
  apply not_elem_of_cons in Hgr1 as [Hne Hgr1]. cbn [inner_groups].
  rewrite load_distinct by done. unfold excitation.
  destruct (comparator_distinct (h !!! gr1) (h !!! gr2))
    as (l1' & l2' & -> & Hsub1 & Hsub2 & _).
  rewrite Hempty1 in Hsub1. rewrite (Hempty gr2) in Hsub2 by (by left).
  apply sublist_nil_r in Hsub1 as ->. apply sublist_nil_r in Hsub2 as ->.
  rewrite Hempty1, (Hempty gr2) by (by left).
  rewrite bool_decide_eq_true_2 by done. cbn [mbind result_bind].
  assert (∀ r, save gr1 gr2 (Distinct [] []) h !!! r = h !!! r) as Hsame.
  { intros r. rewrite save_lookup by done.
    repeat case_decide; subst; [done | | done]. symmetry. apply Hempty. by left. }
  destruct (IH (S counter) (save gr1 gr2 (Distinct [] []) h) Hgr1)
    as (h' & -> & Hh').
  { by rewrite Hsame. }
  { intros r Hr. rewrite Hsame. apply Hempty. by right. }
  exists h'. split; [f_equal; f_equal; cbn [length]; lia|].
  intros r. by rewrite Hh', Hsame.
Qed.

Lemma outer_groups_empty glist1 glist2 : ∀ counter h,
  (∀ r, r ∈ glist1 → r ∉ glist2) →
  (∀ r, r ∈ glist1 ++ glist2 → h !!! r = []) →
  ∃ h',
    outer_groups glist1 glist2 counter h
    = Ok (counter + length glist1 * length glist2, h')
    ∧ ∀ r, h' !!! r = h !!! r.
Proof.
  induction glist1 as [|gr1 glist1 IH]; intros counter h Hdisj Hempty.
  { exists h. cbn. by rewrite Nat.add_0_r. }
  cbn [outer_groups].
  destruct (inner_groups_empty gr1 glist2 counter h) as (h1 & -> & Hh1).
  { apply Hdisj. by left. }
  { apply Hempty. set_solver. }
  { intros r Hr. apply Hempty. set_solver. }
  cbn [mbind result_bind].
  destruct (IH (counter + length glist2) h1) as (h' & -> & Hh').
  { intros r Hr. apply Hdisj. by right. }
  { intros r Hr. rewrite Hh1. apply Hempty. set_solver. }
  exists h'. split; [f_equal; f_equal; cbn [length]; lia|].
  intros r. by rewrite Hh', Hh1.
Qed.

(** X12: empty groups are all alike.  Two grouped lists of [n] empty
    groups each, on different list objects, are judged equal only for
    [n ≤ 1]: every pair of empty groups counts, which makes [n * n]
    matches instead of [n]. *)
Theorem group_comparator_empty_groups glist1 glist2 h :
  (∀ r, r ∈ glist1 → r ∉ glist2) →
  length glist1 = length glist2 →
  (∀ r, r ∈ glist1 ++ glist2 → h !!! r = []) →
  ∃ h',
    group_excitation_lists_comparator glist1 glist2 h
    = Ok (bool_decide (length glist1 ≤ 1), h')
    ∧ ∀ r, h' !!! r = h !!! r.
Proof.
  intros Hdisj Hlen Hempty. unfold group_excitation_lists_comparator, ref.
  rewrite Hlen, Nat.eqb_refl. cbn [negb].
  destruct (outer_groups_empty glist1 glist2 0 h Hdisj Hempty) as (h' & -> & Hh').
  cbn [mbind result_bind]. exists h'. split; [|done].
  cbn [mret result_ret]. do 2 f_equal. unfold ref in *. rewrite Hlen.
  destruct (decide (length glist2 ≤ 1)) as [Hn|Hn].
  - rewrite bool_decide_eq_true_2 by done. apply Nat.eqb_eq. nia.
  - rewrite bool_decide_eq_false_2 by done. apply Nat.eqb_neq. nia.
Qed.

End EmptyGroups.

Lemma group_comparator_empty_groups_witness :
  let h : gmap nat (list (list nat)) := {[ 0 := []; 1 := []; 2 := []; 3 := [] ]} in
  (∀ r, r ∈ [0; 1] → r ∉ [2; 3])
  ∧ length [0; 1] = length [2; 3]
  ∧ (∀ r, r ∈ [0; 1] ++ [2; 3] → h !!! r = [])
  ∧ ∃ h',
      Groups.group_excitation_lists_comparator [0; 1] [2; 3] h
      = Ok (bool_decide (length [0; 1] ≤ 1), h')
      ∧ ∀ r, h' !!! r = h !!! r.
Proof.
  intros h.
  assert (∀ r, r ∈ [0; 1] → r ∉ [2; 3]) as Hdisj.
  { intros r Hr Hr'. apply list_elem_of_In in Hr, Hr'. cbn in Hr, Hr'. lia. }
  assert (∀ r, r ∈ [0; 1] ++ [2; 3] → h !!! r = []) as Hempty.
  { intros r Hr. apply list_elem_of_In in Hr. cbn in Hr.
    destruct Hr as [<-|[<-|[<-|[<-|[]]]]]; reflexivity. }
  split_and!; [exact Hdisj | reflexivity | exact Hempty |].
  exact (group_comparator_empty_groups (A := nat) [0; 1] [2; 3] h
           Hdisj eq_refl Hempty).
Defined.
